(** * EC2 security groups: the reconciler of [ec2_security_group.py]

    A shallow embedding of [EC2SecurityGroupDefinition.__init__],
    [EC2SecurityGroupState.create], [after_activation] and [destroy],
    with the remote API, the sibling-resource resolver and the process
    environment as parameters, followed by the properties of the
    reconciler. *)

From Stdlib Require Import Ascii String ZArith.
From stdpp Require Import base decidable option list strings countable gmap sets.

#[local] Set Warnings "-clear-no-such-hyp".
Local Open Scope string_scope.

(** ** Rules as the code has them

    A rule is a Python list of four or five JSON scalars:
    [[ip_protocol, from_port, to_port, cidr_ip]] or
    [[ip_protocol, from_port, to_port, group_name, owner_id]].  The code
    tells the two shapes apart by [len(rule)], and compares rules as
    tuples. *)

Inductive value : Type :=
  | VStr (s : string)
  | VInt (z : Z)
  | VNone.

#[global] Instance value_eq_dec : EqDecision value.
Proof. solve_decision. Defined.

Definition value_encode (v : value) : string + Z + unit :=
  match v with
  | VStr s => inl (inl s)
  | VInt z => inl (inr z)
  | VNone => inr tt
  end.

Definition value_decode (x : string + Z + unit) : value :=
  match x with
  | inl (inl s) => VStr s
  | inl (inr z) => VInt z
  | inr _ => VNone
  end.

#[global] Instance value_countable : Countable value.
Proof.
  apply (inj_countable' value_encode value_decode).
  intros []; reflexivity.
Defined.

(** [tuple(rule)]: tuples of scalars, compared componentwise. *)
Abbreviation rule := (list value).

Definition opt_str (o : option string) : value :=
  match o with Some s => VStr s | None => VNone end.

Definition opt_int (o : option Z) : value :=
  match o with Some z => VInt z | None => VNone end.

(** ** The diff of lines 234-244

    [old_rules] starts as the set of persisted rules unless the group was
    created in this pass; every desired rule is then either moved out of
    [old_rules] or put into [new_rules]. *)

Definition add_old (old_rules : gset rule) (r : rule) : gset rule :=
  {[ r ]} ∪ old_rules.

Definition diff_step (acc : gset rule * gset rule) (tupled_rule : rule)
  : gset rule * gset rule :=
  let '(new_rules, old_rules) := acc in
  if decide (tupled_rule ∉ old_rules)
  then ({[ tupled_rule ]} ∪ new_rules, old_rules)
  else (new_rules, old_rules ∖ {[ tupled_rule ]}).

(** Returns [(new_rules, old_rules)]: the rules to authorize and the
    rules to revoke. *)
Definition diff_rules (security_group_was_created : bool)
    (security_group_rules resolved_security_group_rules : list rule)
  : gset rule * gset rule :=
  let old_rules :=
    if negb security_group_was_created
    then foldl add_old ∅ security_group_rules
    else ∅ in
  foldl diff_step (∅, old_rules) resolved_security_group_rules.

(** The rules that occur at least twice in a list. *)
Fixpoint repeated (l : list rule) : gset rule :=
  match l with
  | [] => ∅
  | r :: l' => if decide (r ∈ l') then {[ r ]} ∪ repeated l' else repeated l'
  end.


(** ** Strings and Python truthiness *)

(** [s.startswith(p)] *)
Definition startswith (s p : string) : bool := String.prefix p s.

(** [s[n:]] *)
Fixpoint string_drop (n : nat) (s : string) : string :=
  match n, s with
  | O, _ => s
  | S n', String _ s' => string_drop n' s'
  | S _, EmptyString => EmptyString
  end.

(** [s.split(".")[0]] *)
Fixpoint before_dot (s : string) : string :=
  match s with
  | EmptyString => EmptyString
  | String c s' => if Ascii.eqb c "."%char then EmptyString else String c (before_dot s')
  end.

(** Truth value of an attribute that holds [None] or a string. *)
Definition truthy (o : option string) : bool :=
  match o with
  | Some s => negb (String.eqb s "")
  | None => false
  end.

(** ** Exceptions

    The code only ever tells [boto.exception.EC2ResponseError] (with its
    [error_code]) from everything else. *)

Inductive exn : Type :=
  | EC2ResponseError (error_code : string)
  | Exception (what : string).

#[global] Instance exn_eq_dec : EqDecision exn.
Proof. solve_decision. Defined.

Abbreviation result A := (exn + A)%type.

Definition err_of {A} (r : result A) : option exn :=
  match r with inl e => Some e | inr _ => None end.

(** ** The definition (desired state)

    Modelled from the spec: the option types of
    [types/ec2_security_group.py], which is not in this file.  Each field
    is what [__init__] reads; a source that is not set is [None]. *)

Record SourceGroupOptions := {
  groupName : option string;
  ownerId : option string;
}.

Record RulesOptions := {
  protocol : string;
  typeNumber : option Z;
  codeNumber : option Z;
  fromPort : option Z;
  toPort : option Z;
  sourceIp : option string;
  sourceGroup : option SourceGroupOptions;
}.

Record Ec2SecurityGroupOptions := {
  cfg_name : string;
  cfg_description : string;
  cfg_region : string;
  cfg_accessKeyId : string;
  cfg_vpcId : option string;
  cfg_rules : list RulesOptions;
}.

Record EC2SecurityGroupDefinition := {
  defn_security_group_name : string;
  defn_security_group_description : string;
  defn_region : string;
  defn_access_key_id : string;
  defn_vpc_id : option string;
  defn_security_group_rules : list rule;
}.

(** The body of the loop of [__init__] (lines 42-60).  Reading
    [rule.sourceGroup.groupName] when [sourceGroup] is [None] raises. *)
Definition rule_of_options (r : RulesOptions) : result rule :=
  let ip_protocol := protocol r in
  let '(from_port, to_port) :=
    if String.eqb ip_protocol "icmp"
    then (typeNumber r, codeNumber r)
    else (fromPort r, toPort r) in
  match sourceIp r with
  | Some cidr_ip =>
      inr [VStr ip_protocol; opt_int from_port; opt_int to_port; VStr cidr_ip]
  | None =>
      match sourceGroup r with
      | None => inl (Exception "AttributeError")
      | Some g =>
          inr [VStr ip_protocol; opt_int from_port; opt_int to_port;
               opt_str (groupName g); opt_str (ownerId g)]
      end
  end.

Fixpoint rules_of_options (rs : list RulesOptions) : result (list rule) :=
  match rs with
  | [] => inr []
  | r :: rs' =>
      match rule_of_options r with
      | inl e => inl e
      | inr x =>
          match rules_of_options rs' with
          | inl e => inl e
          | inr xs => inr (x :: xs)
          end
      end
  end.

(** [EC2SecurityGroupDefinition.__init__] *)
Definition EC2SecurityGroupDefinition_init (config : Ec2SecurityGroupOptions)
  : result EC2SecurityGroupDefinition :=
  let vpc_id := if truthy (cfg_vpcId config) then cfg_vpcId config else None in
  match rules_of_options (cfg_rules config) with
  | inl e => inl e
  | inr rules =>
      inr {| defn_security_group_name := cfg_name config;
             defn_security_group_description := cfg_description config;
             defn_region := cfg_region config;
             defn_access_key_id := cfg_accessKeyId config;
             defn_vpc_id := vpc_id;
             defn_security_group_rules := rules |}
  end.

(** ** What the remote API returns *)

Record grant := {
  grant_cidr_ip : option string;
  grant_groupId : option string;
  grant_groupName : option string;
  grant_owner_id : option string;
}.

(** [from_port] and [to_port] hold what [int(...)] makes of the field, and
    [None] where [int] raises. *)
Record ip_permission := {
  perm_ip_protocol : string;
  perm_from_port : option Z;
  perm_to_port : option Z;
  perm_grants : list grant;
}.

Record security_group := {
  grp_id : string;
  grp_description : string;
  grp_rules : list ip_permission;
}.

(** The source of an [authorize] or [revoke] call. *)
Inductive rule_source : Type :=
  | CidrIp (cidr_ip : value)
  | SrcGroupName (name : value) (owner_id : value)
  | SrcGroupId (id : string) (owner_id : value).

Record permission_args := {
  arg_ip_protocol : value;
  arg_from_port : value;
  arg_to_port : value;
  arg_source : rule_source;
}.

Inductive group_ref : Type :=
  | ByName (name : option string)
  | ById (group_id : option string).

(** The remote calls of a pass, in order, each with the error it
    answered ([None] for success). *)
Inductive event : Type :=
  | GetAllSecurityGroups (which : group_ref) (err : option exn)
  | IdToSecurityGroupName (group_id : option string) (err : option exn)
  | NameToSecurityGroup (name : value) (err : option exn)
  | CreateSecurityGroup (name : option string) (err : option exn)
  | Authorize (r : rule) (err : option exn)
  | Revoke (r : rule) (err : option exn)
  | DeleteSecurityGroup (which : group_ref) (err : option exn).

(** Lifecycle states of [nixops.resources.ResourceState]. *)
Inductive lifecycle : Type :=
  | UNKNOWN | MISSING | STARTING | UP | STOPPING | STOPPED | UNREACHABLE | RESCUE.

#[global] Instance lifecycle_eq_dec : EqDecision lifecycle.
Proof. solve_decision. Defined.

(** An entry of [old_security_groups]: [{"name": ..., "region": ...}]. *)
Record old_group := {
  og_name : option string;
  og_region : option string;
}.

#[global] Instance old_group_eq_dec : EqDecision old_group.
Proof. solve_decision. Defined.

(** ** The collaborators

    The EC2 client ([boto] through [nixops_aws.ec2_utils]), the sibling
    resources of the deployment and the process environment.  [W] is the
    state of the remote side, [Conn] a connection. *)

Class Collaborators (W Conn : Type) := {
  (** [nixops_aws.ec2_utils.connect(region, access_key_id)] *)
  connect : option string → option string → result Conn;
  (** [nixops_aws.ec2_utils.get_access_key_id()] *)
  get_access_key_id : option string;
  (** [depl.get_typed_resource(name, "vpc", VPCState)._state["vpcId"]] *)
  get_vpc_resource : string → result string;
  (** [depl.get_typed_resource(name, "elastic-ip", ElasticIPState).public_ipv4] *)
  get_elastic_ip_resource : string → result (option string);
  get_all_security_groups :
    Conn → group_ref → W → W * result (list security_group);
  id_to_security_group_name :
    Conn → option string → option string → W → W * result string;
  name_to_security_group :
    Conn → value → option string → W → W * result string;
  create_security_group :
    Conn → option string → option string → option string →
    W → W * result security_group;
  authorize : security_group → permission_args → W → W * result unit;
  revoke : security_group → permission_args → W → W * result unit;
  delete_security_group : Conn → group_ref → W → W * result unit;
  (** The number of times [nixops_aws.ec2_utils.retry] calls again. *)
  max_retries : nat;
}.

Section reconciler.
Context {W Conn : Type}.

(** ** The resource state

    The attributes of [EC2SecurityGroupState] kept in the deployment
    database, and the cached connection [_conn] of the instance. *)

Record EC2SecurityGroupState := {
  state : lifecycle;
  region : option string;
  security_group_id : option string;
  security_group_name : option string;
  security_group_description : option string;
  security_group_rules : list rule;
  old_security_groups : list old_group;
  access_key_id : option string;
  vpc_id : option string;
  _conn : option Conn;
}.

Definition set_state (v : lifecycle) (s : EC2SecurityGroupState) :=
  {| state := v; region := region s;
     security_group_id := security_group_id s;
     security_group_name := security_group_name s;
     security_group_description := security_group_description s;
     security_group_rules := security_group_rules s;
     old_security_groups := old_security_groups s;
     access_key_id := access_key_id s; vpc_id := vpc_id s;
     _conn := _conn s |}.

Definition set_region (v : option string) (s : EC2SecurityGroupState) :=
  {| state := state s; region := v;
     security_group_id := security_group_id s;
     security_group_name := security_group_name s;
     security_group_description := security_group_description s;
     security_group_rules := security_group_rules s;
     old_security_groups := old_security_groups s;
     access_key_id := access_key_id s; vpc_id := vpc_id s;
     _conn := _conn s |}.

Definition set_security_group_id (v : option string) (s : EC2SecurityGroupState) :=
  {| state := state s; region := region s;
     security_group_id := v;
     security_group_name := security_group_name s;
     security_group_description := security_group_description s;
     security_group_rules := security_group_rules s;
     old_security_groups := old_security_groups s;
     access_key_id := access_key_id s; vpc_id := vpc_id s;
     _conn := _conn s |}.

Definition set_security_group_name (v : option string) (s : EC2SecurityGroupState) :=
  {| state := state s; region := region s;
     security_group_id := security_group_id s;
     security_group_name := v;
     security_group_description := security_group_description s;
     security_group_rules := security_group_rules s;
     old_security_groups := old_security_groups s;
     access_key_id := access_key_id s; vpc_id := vpc_id s;
     _conn := _conn s |}.

Definition set_security_group_description (v : option string)
    (s : EC2SecurityGroupState) :=
  {| state := state s; region := region s;
     security_group_id := security_group_id s;
     security_group_name := security_group_name s;
     security_group_description := v;
     security_group_rules := security_group_rules s;
     old_security_groups := old_security_groups s;
     access_key_id := access_key_id s; vpc_id := vpc_id s;
     _conn := _conn s |}.

Definition set_security_group_rules (v : list rule) (s : EC2SecurityGroupState) :=
  {| state := state s; region := region s;
     security_group_id := security_group_id s;
     security_group_name := security_group_name s;
     security_group_description := security_group_description s;
     security_group_rules := v;
     old_security_groups := old_security_groups s;
     access_key_id := access_key_id s; vpc_id := vpc_id s;
     _conn := _conn s |}.

Definition set_old_security_groups (v : list old_group)
    (s : EC2SecurityGroupState) :=
  {| state := state s; region := region s;
     security_group_id := security_group_id s;
     security_group_name := security_group_name s;
     security_group_description := security_group_description s;
     security_group_rules := security_group_rules s;
     old_security_groups := v;
     access_key_id := access_key_id s; vpc_id := vpc_id s;
     _conn := _conn s |}.

Definition set_access_key_id (v : option string) (s : EC2SecurityGroupState) :=
  {| state := state s; region := region s;
     security_group_id := security_group_id s;
     security_group_name := security_group_name s;
     security_group_description := security_group_description s;
     security_group_rules := security_group_rules s;
     old_security_groups := old_security_groups s;
     access_key_id := v; vpc_id := vpc_id s;
     _conn := _conn s |}.

Definition set_vpc_id (v : option string) (s : EC2SecurityGroupState) :=
  {| state := state s; region := region s;
     security_group_id := security_group_id s;
     security_group_name := security_group_name s;
     security_group_description := security_group_description s;
     security_group_rules := security_group_rules s;
     old_security_groups := old_security_groups s;
     access_key_id := access_key_id s; vpc_id := v;
     _conn := _conn s |}.

Definition set_conn (v : option Conn) (s : EC2SecurityGroupState) :=
  {| state := state s; region := region s;
     security_group_id := security_group_id s;
     security_group_name := security_group_name s;
     security_group_description := security_group_description s;
     security_group_rules := security_group_rules s;
     old_security_groups := old_security_groups s;
     access_key_id := access_key_id s; vpc_id := vpc_id s;
     _conn := v |}.

(** ** Computations

    A method runs on the object, the remote side and the record of the
    calls made so far; it ends with a value or with an exception, and
    what it has written stays written when it raises. *)

Record sigma := {
  self : EC2SecurityGroupState;
  world : W;
  trace : list event;
}.

Definition M (A : Type) : Type := sigma → sigma * result A.

#[global] Instance M_ret : MRet M := λ A a σ, (σ, inr a).

#[global] Instance M_bind : MBind M := λ A B f m σ,
  let '(σ', r) := m σ in
  match r with
  | inl e => (σ', inl e)
  | inr a => f a σ'
  end.

Definition raise {A} (e : exn) : M A := λ σ, (σ, inl e).

Definition lift {A} (r : result A) : M A := λ σ, (σ, r).

Definition get_self : M EC2SecurityGroupState := λ σ, (σ, inr (self σ)).

Definition modify_self (f : EC2SecurityGroupState → EC2SecurityGroupState)
  : M unit :=
  λ σ, ({| self := f (self σ); world := world σ; trace := trace σ |}, inr tt).

(** A remote call: the remote side moves on and the call is recorded
    with its answer. *)
Definition call {A} (op : W → W * result A) (ev : option exn → event) : M A :=
  λ σ, let '(w', r) := op (world σ) in
       ({| self := self σ; world := w'; trace := trace σ ++ [ev (err_of r)] |}, r).

(** [try: m], the exception handed to the [except] clauses. *)
Definition try_ {A} (m : M A) : M (result A) :=
  λ σ, let '(σ', r) := m σ in (σ', inr r).

(** What a rolled back transaction leaves: the attributes as they were,
    the cached connection as it is. *)
Definition rollback (saved current : EC2SecurityGroupState) :=
  set_conn (_conn current) saved.

(** [with self.depl._db: body]: the writes of [body] are committed when
    it ends, and rolled back when it raises. *)
Definition with_db {A} (body : M A) : M A :=
  λ σ, let '(σ', r) := body σ in
       match r with
       | inl e =>
           ({| self := rollback (self σ) (self σ');
               world := world σ'; trace := trace σ' |}, inl e)
       | inr a => (σ', inr a)
       end.

Fixpoint for_each {A} (f : A → M unit) (l : list A) : M unit :=
  match l with
  | [] => mret tt
  | x :: l' => f x ;; for_each f l'
  end.

Fixpoint map_m {A B} (f : A → M B) (l : list A) : M (list B) :=
  match l with
  | [] => mret []
  | x :: l' => y ← f x; ys ← map_m f l'; mret (y :: ys)
  end.

(** [l[0]] *)
Definition index0 {A} (l : list A) : M A :=
  match l with
  | x :: _ => mret x
  | [] => raise (Exception "IndexError")
  end.

(** [rule[i]] *)
Definition idx (r : rule) (i : nat) : M value :=
  match r !! i with
  | Some v => mret v
  | None => raise (Exception "IndexError")
  end.

(** [int(x)] *)
Definition int_ (x : option Z) : M Z :=
  match x with
  | Some z => mret z
  | None => raise (Exception "TypeError")
  end.
End reconciler.

Arguments EC2SecurityGroupState : clear implicits.
Arguments sigma : clear implicits.
Arguments M : clear implicits.

Section methods.
Context {W Conn : Type} {remote : Collaborators W Conn}.

Local Abbreviation State := (EC2SecurityGroupState Conn).
Local Abbreviation M := (M W Conn).

(** [self._connect()] (lines 116-120) *)
Definition _connect : M Conn :=
  self ← get_self;
  match _conn self with
  | Some c => mret c
  | None =>
      c ← lift (connect (region self) (access_key_id self));
      modify_self (set_conn (Some c));;
      mret c
  end.

(** Reading [self._conn] to hand it to a helper that calls on it. *)
Definition conn_attr : M Conn :=
  self ← get_self;
  match _conn self with
  | Some c => mret c
  | None => raise (Exception "AttributeError")
  end.

(** Modelled from the spec: [nixops_aws.ec2_utils.retry], which is not
    in this file.  A call that fails with one of the listed error codes
    is made again, at most [max_retries] times; any other failure, and
    the failure of the last attempt, goes to the caller. *)
Fixpoint retry_from {A} (n : nat) (f : M A) (error_codes : list string) : M A :=
  match n with
  | O => f
  | S n' =>
      r ← try_ f;
      match r with
      | inr a => mret a
      | inl (EC2ResponseError c) =>
          if bool_decide (c ∈ error_codes)
          then retry_from n' f error_codes
          else raise (EC2ResponseError c)
      | inl e => raise e
      end
  end.

Definition retry {A} (f : M A) (error_codes : list string) : M A :=
  retry_from max_retries f error_codes.

(** [retry_notfound] (lines 123-124) *)
Definition retry_notfound (f : M unit) : M unit :=
  retry f ["InvalidGroup.NotFound"].

(** *** [create], lines 126-135: a new name or region *)
Definition detect_identity_change (defn : EC2SecurityGroupDefinition) : M unit :=
  self ← get_self;
  if truthy (security_group_name self)
     && (negb (bool_decide
                 (Some (defn_security_group_name defn) = security_group_name self))
         || negb (bool_decide (Some (defn_region defn) = region self)))
  then
    with_db (
      modify_self (set_state UNKNOWN);;
      self ← get_self;
      modify_self (set_old_security_groups
        (old_security_groups self
           ++ [ {| og_name := security_group_name self;
                   og_region := region self |} ])))
  else mret tt.

(** *** lines 137-142: the VPC of the definition *)
Definition resolved_vpc_id (defn : EC2SecurityGroupDefinition)
  : result (option string) :=
  match defn_vpc_id defn with
  | Some v =>
      if startswith v "res-"
      then match get_vpc_resource (before_dot (string_drop 4 v)) with
           | inl e => inl e
           | inr id => inr (Some id)
           end
      else inr (Some v)
  | None => inr None
  end.

Definition resolve_vpc_id (defn : EC2SecurityGroupDefinition) : M (option string) :=
  lift (resolved_vpc_id defn).

Definition with_vpc_id (defn : EC2SecurityGroupDefinition) (v : option string) :=
  {| defn_security_group_name := defn_security_group_name defn;
     defn_security_group_description := defn_security_group_description defn;
     defn_region := defn_region defn;
     defn_access_key_id := defn_access_key_id defn;
     defn_vpc_id := v;
     defn_security_group_rules := defn_security_group_rules defn |}.

(** *** lines 144-151 *)
Definition persist_definition (defn : EC2SecurityGroupDefinition) : M unit :=
  with_db (
    modify_self (set_region (Some (defn_region defn)));;
    modify_self (set_access_key_id
      (if truthy (Some (defn_access_key_id defn))
       then Some (defn_access_key_id defn)
       else get_access_key_id));;
    modify_self (set_security_group_name (Some (defn_security_group_name defn)));;
    modify_self (set_security_group_description
      (Some (defn_security_group_description defn)));;
    modify_self (set_vpc_id (defn_vpc_id defn))).

(** *** lines 153-196: the group as the remote side has it *)

(** Lines 173-189, for one grant of one permission. *)
Definition rule_of_grant (perm : ip_permission) (g : grant) : M rule :=
  from_port ← int_ (perm_from_port perm);
  to_port ← int_ (perm_to_port perm);
  if truthy (grant_cidr_ip g)
  then mret [VStr (perm_ip_protocol perm); VInt from_port; VInt to_port;
             opt_str (grant_cidr_ip g)]
  else
    self ← get_self;
    group ← (if truthy (vpc_id self)
             then c ← conn_attr;
                  n ← call (id_to_security_group_name c (grant_groupId g) (vpc_id self))
                           (IdToSecurityGroupName (grant_groupId g));
                  mret (VStr n)
             else mret (opt_str (grant_groupName g)));
    mret [VStr (perm_ip_protocol perm); VInt from_port; VInt to_port;
          group; opt_str (grant_owner_id g)].

Definition rules_of_group (grp : security_group) : M (list rule) :=
  rss ← map_m (λ perm, map_m (rule_of_grant perm) (perm_grants perm)) (grp_rules grp);
  mret (concat rss).

(** Lines 192-196. *)
Definition handle_not_found (e : exn) : M unit :=
  match e with
  | EC2ResponseError c =>
      if String.eqb c "InvalidGroup.NotFound"
      then modify_self (set_state MISSING)
      else raise e
  | _ => raise e
  end.

Definition check_remote (defn : EC2SecurityGroupDefinition)
  : M (option security_group) :=
  with_db (
    _connect;;
    fetched ← try_ (
      self ← get_self;
      c ← _connect;
      l ← (if truthy (vpc_id self)
           then call (get_all_security_groups c (ById (security_group_id self)))
                     (GetAllSecurityGroups (ById (security_group_id self)))
           else call (get_all_security_groups c
                        (ByName (Some (defn_security_group_name defn))))
                     (GetAllSecurityGroups
                        (ByName (Some (defn_security_group_name defn)))));
      index0 l);
    match fetched with
    | inl e => handle_not_found e;; mret None
    | inr grp =>
        r ← try_ (
          modify_self (set_state UP);;
          modify_self (set_security_group_id (Some (grp_id grp)));;
          modify_self (set_security_group_description (Some (grp_description grp)));;
          rules ← rules_of_group grp;
          modify_self (set_security_group_rules rules));
        match r with
        | inl e => handle_not_found e
        | inr _ => mret tt
        end;;
        mret (Some grp)
    end).

(** *** lines 198-206: elastic IPs as sources *)

(** [rule[-1] = v] *)
Definition set_last (r : rule) (v : value) : rule :=
  match r with
  | [] => []
  | _ => removelast r ++ [v]
  end.

Definition resolve_rule (r : rule) : result rule :=
  match last r with
  | None => inl (Exception "IndexError")
  | Some (VStr s) =>
      if startswith s "res-"
      then match get_elastic_ip_resource (string_drop 4 s) with
           | inl e => inl e
           | inr (Some public_ipv4) => inr (set_last r (VStr (public_ipv4 ++ "/32")))
           | inr None => inl (Exception "TypeError")
           end
      else inr r
  | Some _ => inl (Exception "AttributeError")
  end.

Fixpoint resolve_rules (rules : list rule) : result (list rule) :=
  match rules with
  | [] => inr []
  | r :: rules' =>
      match resolve_rule r with
      | inl e => inl e
      | inr r' =>
          match resolve_rules rules' with
          | inl e => inl e
          | inr rs => inr (r' :: rs)
          end
      end
  end.

(** *** lines 208-232: creating the group

    Returns [grp] and [security_group_was_created]. *)
Definition create_group (defn : EC2SecurityGroupDefinition)
    (grp : option security_group) : M (option security_group * bool) :=
  self ← get_self;
  if bool_decide (state self = MISSING) || bool_decide (state self = UNKNOWN)
  then
    _connect;;
    r ← try_ (
      self ← get_self;
      c ← _connect;
      g ← call (create_security_group c (security_group_name self)
                  (security_group_description self) (defn_vpc_id defn))
               (CreateSecurityGroup (security_group_name self));
      modify_self (set_security_group_id (Some (grp_id g)));;
      mret g);
    res ← match r with
          | inr g => mret (Some g, true)
          | inl (EC2ResponseError c) =>
              self ← get_self;
              if negb (bool_decide (state self = UNKNOWN))
                 || negb (String.eqb c "InvalidGroup.Duplicate")
              then raise (EC2ResponseError c)
              else mret (grp, false)
          | inl e => raise e
          end;
    modify_self (set_state STARTING);;
    mret res
  else mret (grp, false).

(** [get_security_group] (lines 325-333) *)
Definition get_security_group : M security_group :=
  self ← get_self;
  c ← _connect;
  l ← (if truthy (vpc_id self)
       then call (get_all_security_groups c (ById (security_group_id self)))
                 (GetAllSecurityGroups (ById (security_group_id self)))
       else call (get_all_security_groups c (ByName (security_group_name self)))
                 (GetAllSecurityGroups (ByName (security_group_name self))));
  index0 l.

(** Lines 252-254 and 294-296. *)
Definition ensure_group (grp : option security_group) : M security_group :=
  match grp with
  | Some g => mret g
  | None => _connect;; get_security_group
  end.

Definition cidr_args (r : rule) : M permission_args :=
  p ← idx r 0; f ← idx r 1; t ← idx r 2; c ← idx r 3;
  mret {| arg_ip_protocol := p; arg_from_port := f; arg_to_port := t;
          arg_source := CidrIp c |}.

(** Lines 267-275 and 306-314: the peer group of a five-element rule. *)
Definition src_group_of (r : rule) : M rule_source :=
  owner_id ← idx r 4;
  self ← get_self;
  if truthy (vpc_id self)
  then c ← conn_attr;
       name ← idx r 3;
       id ← call (name_to_security_group c name (vpc_id self))
                 (NameToSecurityGroup name);
       mret (SrcGroupId id owner_id)
  else name ← idx r 3;
       mret (SrcGroupName name owner_id).

Definition group_args (r : rule) (src : rule_source) : M permission_args :=
  p ← idx r 0; f ← idx r 1; t ← idx r 2;
  mret {| arg_ip_protocol := p; arg_from_port := f; arg_to_port := t;
          arg_source := src |}.

(** *** lines 246-286: authorizing the new rules *)

(** The body of the [try] (lines 257-283). *)
Definition authorize_rule (grp : security_group) (r : rule) : M unit :=
  if Nat.eqb (length r) 4
  then args ← cidr_args r;
       retry_notfound (call (authorize grp args) (Authorize r))
  else src ← src_group_of r;
       args ← group_args r src;
       retry_notfound (call (authorize grp args) (Authorize r)).

Definition add_rule (grp : security_group) (r : rule) : M unit :=
  res ← try_ (authorize_rule grp r);
  match res with
  | inr _ => mret tt
  | inl (EC2ResponseError c) =>
      if negb (String.eqb c "InvalidPermission.Duplicate")
      then raise (EC2ResponseError c)
      else mret tt
  | inl e => raise e
  end.

Definition add_rules (new_rules : gset rule) (grp : option security_group)
  : M (option security_group) :=
  if bool_decide (new_rules ≠ ∅)
  then g ← ensure_group grp;
       for_each (add_rule g) (elements new_rules);;
       mret (Some g)
  else mret grp.

(** *** lines 288-320: revoking the old rules *)
Definition revoke_rule (grp : security_group) (r : rule) : M unit :=
  if Nat.eqb (length r) 4
  then args ← cidr_args r;
       call (revoke grp args) (Revoke r)
  else src ← src_group_of r;
       args ← group_args r src;
       call (revoke grp args) (Revoke r).

Definition remove_rules (old_rules : gset rule) (grp : option security_group)
  : M (option security_group) :=
  if bool_decide (old_rules ≠ ∅)
  then g ← ensure_group grp;
       for_each (revoke_rule g) (elements old_rules);;
       mret (Some g)
  else mret grp.

(** *** lines 321-323 *)
Definition commit_rules (resolved_security_group_rules : list rule) : M unit :=
  modify_self (set_security_group_rules resolved_security_group_rules);;
  modify_self (set_state UP).

(** Lines 234-323: from the diff to the end of the pass. *)
Definition apply_rules (resolved_security_group_rules : list rule)
    (grp : option security_group) (security_group_was_created : bool) : M unit :=
  self ← get_self;
  let '(new_rules, old_rules) :=
    diff_rules security_group_was_created (security_group_rules self)
      resolved_security_group_rules in
  grp ← add_rules new_rules grp;
  _ ← remove_rules old_rules grp;
  commit_rules resolved_security_group_rules.

(** Lines 153-323: what [create] does once the definition is persisted. *)
Definition reconcile_rules (defn : EC2SecurityGroupDefinition) (check : bool)
  : M unit :=
  grp ← (if check then check_remote defn else mret None);
  resolved_security_group_rules ← lift (resolve_rules (defn_security_group_rules defn));
  '(grp, security_group_was_created) ← create_group defn grp;
  apply_rules resolved_security_group_rules grp security_group_was_created.

(** [EC2SecurityGroupState.create] (lines 122-323) *)
Definition create (defn : EC2SecurityGroupDefinition)
    (check allow_reboot allow_recreate : bool) : M unit :=
  detect_identity_change defn;;
  v ← resolve_vpc_id defn;
  let defn := with_vpc_id defn v in
  persist_definition defn;;
  reconcile_rules defn check.

(** *** [after_activation] (lines 335-348)

    The loop, with its variables [region] and [conn]: a superseded group
    of another region than the one in use gets a connection of its own,
    made by [nixops_aws.ec2_utils.connect] and not cached. *)
Fixpoint delete_old_groups (region : option string) (conn : Conn)
    (groups : list old_group) : M unit :=
  match groups with
  | [] => mret tt
  | group :: groups' =>
      '(region, conn) ←
        (if bool_decide (og_region group ≠ region)
         then self ← get_self;
              c ← lift (connect (og_region group) (access_key_id self));
              mret (og_region group, c)
         else mret (region, conn));
      r ← try_ (call (delete_security_group conn (ByName (og_name group)))
                     (DeleteSecurityGroup (ByName (og_name group))));
      match r with
      | inr _ => mret tt
      | inl (EC2ResponseError c) =>
          if negb (String.eqb c "InvalidGroup.NotFound")
          then raise (EC2ResponseError c)
          else mret tt
      | inl e => raise e
      end;;
      delete_old_groups region conn groups'
  end.

Definition after_activation (defn : EC2SecurityGroupDefinition) : M unit :=
  self ← get_self;
  let region := region self in
  conn ← _connect;
  self ← get_self;
  delete_old_groups region conn (old_security_groups self);;
  modify_self (set_old_security_groups []).

(** The call that [destroy] retries (lines 360-362). *)
Definition delete_group : M unit :=
  self ← get_self;
  c ← _connect;
  call (delete_security_group c (ById (security_group_id self)))
       (DeleteSecurityGroup (ById (security_group_id self))).

(** [EC2SecurityGroupState.destroy] (lines 350-370) *)
Definition destroy (wipe : bool) : M bool :=
  self ← get_self;
  (if bool_decide (state self = UP) || bool_decide (state self = STARTING)
   then
     _connect;;
     r ← try_ (retry delete_group ["DependencyViolation"]);
     match r with
     | inr _ => mret tt
     | inl (EC2ResponseError c) =>
         if negb (String.eqb c "InvalidGroup.NotFound")
         then raise (EC2ResponseError c)
         else mret tt
     | inl e => raise e
     end;;
     modify_self (set_state MISSING)
   else mret tt);;
  mret true.
End methods.

(** ** Concrete collaborators

    A remote side without state, whose every call of a kind gives the
    same answer; connecting always succeeds. *)

Record answers := {
  ans_vpc : result string;
  ans_elastic_ip : result (option string);
  ans_groups : result (list security_group);
  ans_create : result security_group;
  ans_authorize : result unit;
  ans_revoke : result unit;
  ans_delete : result unit;
}.

Definition fixed_remote (a : answers) : Collaborators unit unit := {|
  connect := λ _ _, inr tt;
  get_access_key_id := None;
  get_vpc_resource := λ _, ans_vpc a;
  get_elastic_ip_resource := λ _, ans_elastic_ip a;
  get_all_security_groups := λ _ _ w, (w, ans_groups a);
  id_to_security_group_name := λ _ _ _ w, (w, inr "peer");
  name_to_security_group := λ _ _ _ w, (w, inr "sg-peer");
  create_security_group := λ _ _ _ _ w, (w, ans_create a);
  authorize := λ _ _ w, (w, ans_authorize a);
  revoke := λ _ _ w, (w, ans_revoke a);
  delete_security_group := λ _ _ w, (w, ans_delete a);
  max_retries := 7;
|}.

Definition the_group : security_group :=
  {| grp_id := "sg-1"; grp_description := "web servers"; grp_rules := [] |}.

(** Every call succeeds. *)
Definition all_ok : answers := {|
  ans_vpc := inr "vpc-1";
  ans_elastic_ip := inr (Some "198.51.100.7");
  ans_groups := inr [the_group];
  ans_create := inr the_group;
  ans_authorize := inr tt;
  ans_revoke := inr tt;
  ans_delete := inr tt;
|}.

Definition ssh_rule : rule := [VStr "tcp"; VInt 22; VInt 22; VStr "0.0.0.0/0"].
Definition http_rule : rule := [VStr "tcp"; VInt 80; VInt 80; VStr "10.0.0.0/8"].
Definition https_rule : rule := [VStr "tcp"; VInt 443; VInt 443; VStr "10.0.0.0/8"].

(** A resource that nothing has been written to yet. *)
Definition fresh_state : EC2SecurityGroupState unit := {|
  state := UNKNOWN; region := None; security_group_id := None;
  security_group_name := None; security_group_description := None;
  security_group_rules := []; old_security_groups := [];
  access_key_id := None; vpc_id := None; _conn := None;
|}.

(** The group "web" of us-east-1, up, with the HTTP rule. *)
Definition web_up : EC2SecurityGroupState unit := {|
  state := UP; region := Some "us-east-1"; security_group_id := Some "sg-1";
  security_group_name := Some "web";
  security_group_description := Some "web servers";
  security_group_rules := [http_rule]; old_security_groups := [];
  access_key_id := Some "AKIA"; vpc_id := None; _conn := None;
|}.

(** The group "web" in another state. *)
Definition web_in (s : lifecycle) : EC2SecurityGroupState unit :=
  set_state s web_up.

Definition start (s : EC2SecurityGroupState unit) : sigma unit unit :=
  {| self := s; world := tt; trace := [] |}.

Definition web_defn (name : string) (vpc : option string) (rules : list rule)
  : EC2SecurityGroupDefinition := {|
  defn_security_group_name := name;
  defn_security_group_description := "web servers";
  defn_region := "us-east-1";
  defn_access_key_id := "AKIA";
  defn_vpc_id := vpc;
  defn_security_group_rules := rules;
|}.

(** The sibling VPC cannot be found. *)
Definition no_vpc : answers := {|
  ans_vpc := inl (Exception "resource not found");
  ans_elastic_ip := ans_elastic_ip all_ok;
  ans_groups := ans_groups all_ok;
  ans_create := ans_create all_ok;
  ans_authorize := ans_authorize all_ok;
  ans_revoke := ans_revoke all_ok;
  ans_delete := ans_delete all_ok;
|}.

(** Creating a group fails with the given error code. *)
Definition create_fails (code : string) : answers := {|
  ans_vpc := ans_vpc all_ok;
  ans_elastic_ip := ans_elastic_ip all_ok;
  ans_groups := ans_groups all_ok;
  ans_create := inl (EC2ResponseError code);
  ans_authorize := ans_authorize all_ok;
  ans_revoke := ans_revoke all_ok;
  ans_delete := ans_delete all_ok;
|}.

(** Authorizing a rule fails with the given error code. *)
Definition authorize_fails (code : string) : answers := {|
  ans_vpc := ans_vpc all_ok;
  ans_elastic_ip := ans_elastic_ip all_ok;
  ans_groups := ans_groups all_ok;
  ans_create := ans_create all_ok;
  ans_authorize := inl (EC2ResponseError code);
  ans_revoke := ans_revoke all_ok;
  ans_delete := ans_delete all_ok;
|}.


(** Deleting the group fails with the given error code. *)
Definition delete_fails (code : string) : answers := {|
  ans_vpc := ans_vpc all_ok;
  ans_elastic_ip := ans_elastic_ip all_ok;
  ans_groups := ans_groups all_ok;
  ans_create := ans_create all_ok;
  ans_authorize := ans_authorize all_ok;
  ans_revoke := ans_revoke all_ok;
  ans_delete := inl (EC2ResponseError code);
|}.

(** A remote side that counts the dependents still attached to the
    group: deleting fails with [DependencyViolation] while there are
    some, and each attempt sees one of them gone. *)
Definition referenced_remote : Collaborators nat unit := {|
  connect := λ _ _, inr tt;
  get_access_key_id := None;
  get_vpc_resource := λ _, inr "vpc-1";
  get_elastic_ip_resource := λ _, inr (Some "198.51.100.7");
  get_all_security_groups := λ _ _ w, (w, inr [the_group]);
  id_to_security_group_name := λ _ _ _ w, (w, inr "peer");
  name_to_security_group := λ _ _ _ w, (w, inr "sg-peer");
  create_security_group := λ _ _ _ _ w, (w, inr the_group);
  authorize := λ _ _ w, (w, inr tt);
  revoke := λ _ _ w, (w, inr tt);
  delete_security_group := λ _ _ w,
    match w with
    | O => (O, inr tt)
    | S n => (n, inl (EC2ResponseError "DependencyViolation"))
    end;
  max_retries := 7;
|}.

Definition retired_web : old_group :=
  {| og_name := Some "web"; og_region := Some "us-east-1" |}.

(** The group, renamed to "web2" and moved, with the two groups it
    supersedes still to be deleted. *)
Definition web2_retiring : EC2SecurityGroupState unit :=
  set_old_security_groups
    [retired_web; {| og_name := Some "web1"; og_region := Some "eu-west-1" |}]
    (set_security_group_name (Some "web2") web_up).

(** * The vocabulary of the properties *)

Local Open Scope list_scope.

Definition is_authorize (ev : event) : bool :=
  match ev with Authorize _ _ => true | _ => false end.

Definition is_revoke (ev : event) : bool :=
  match ev with Revoke _ _ => true | _ => false end.

(** The rules of the [revoke] calls of a trace, in order. *)
Definition revoked (evs : list event) : list rule :=
  omap (λ ev, match ev with Revoke r _ => Some r | _ => None end) evs.

(** The rules of the [authorize] calls of a trace, in order. *)
Definition authorized (evs : list event) : list rule :=
  omap (λ ev, match ev with Authorize r _ => Some r | _ => None end) evs.

(** The groups of the delete calls of a trace, in order. *)
Definition deleted (evs : list event) : list group_ref :=
  omap (λ ev, match ev with DeleteSecurityGroup g _ => Some g | _ => None end) evs.

(** The delete calls that retire a list of superseded groups. *)
Definition old_refs (groups : list old_group) : list group_ref :=
  map (λ group, ByName (og_name group)) groups.

(** The calls that only read the remote side. *)
Definition is_query (ev : event) : Prop :=
  match ev with
  | GetAllSecurityGroups _ _ | IdToSecurityGroupName _ _
  | NameToSecurityGroup _ _ => True
  | _ => False
  end.

(** The calls of a pass that may authorize the rules of [N] and revokes
    nothing. *)
Definition authorizes_within (N : gset rule) (ev : event) : Prop :=
  match ev with
  | Authorize r _ => r ∈ N
  | Revoke _ _ => False
  | _ => True
  end.

(** The group that the check looks up: by id within a VPC, by the name
    of the definition otherwise (lines 159-166). *)
Definition group_looked_up {Conn} (defn : EC2SecurityGroupDefinition)
    (s : EC2SecurityGroupState Conn) : group_ref :=
  if truthy (vpc_id s)
  then ById (security_group_id s)
  else ByName (Some (defn_security_group_name defn)).

Definition not_revoke (ev : event) : Prop := is_revoke ev = false.

Definition not_authorize (ev : event) : Prop := is_authorize ev = false.


(** A [revoke] call that is answered with an error is the last call, and
    the error is the outcome. *)
Definition revokes_fatal {A} (evs : list event) (res : result A) : Prop :=
  ∀ i r e, evs !! i = Some (Revoke r (Some e)) →
           S i = length evs ∧ res = inl e.

Section vocabulary.
Context {W Conn : Type}.

Local Abbreviation sigma := (sigma W Conn).
Local Abbreviation M := (M W Conn).

(** [m] takes every [σ] to a state related to it by [R], whether it
    returns or raises. *)
Definition respects {A} (R : sigma → sigma → Prop) (m : M A) : Prop :=
  ∀ σ, R σ (m σ).1.

(** Relations that computations can be composed under: reflexive,
    transitive, and kept by the rollback of a transaction. *)
Class Frame (R : sigma → sigma → Prop) : Prop := {
  frame_refl σ : R σ σ;
  frame_trans σ1 σ2 σ3 : R σ1 σ2 → R σ2 σ3 → R σ1 σ3;
  frame_rollback σ σ' :
    R σ σ' →
    R σ {| self := rollback (self σ) (self σ');
           world := world σ'; trace := trace σ' |};
}.

(** The list of superseded groups is what it was. *)
Definition keeps_old (σ σ' : sigma) : Prop :=
  old_security_groups (self σ') = old_security_groups (self σ).

(** The persisted name and region are what they were. *)
Definition keeps_identity (σ σ' : sigma) : Prop :=
  security_group_name (self σ') = security_group_name (self σ)
  ∧ region (self σ') = region (self σ).

(** Nothing is written to the attributes of the object; a connection may
    have been cached. *)
Definition keeps_attributes (σ σ' : sigma) : Prop :=
  self σ' = set_conn (_conn (self σ')) (self σ).

(** The persisted rules are what they were. *)
Definition keeps_rules (σ σ' : sigma) : Prop :=
  security_group_rules (self σ') = security_group_rules (self σ).

(** The calls made from [σ] to [σ'] all satisfy [P]. *)
Definition emits (P : event → Prop) (σ σ' : sigma) : Prop :=
  ∃ evs, trace σ' = trace σ ++ evs ∧ Forall P evs.

(** The calls made by [m] from [σ]. *)
Definition calls_of {A} (m : M A) (σ : sigma) : list event :=
  drop (length (trace σ)) (trace (m σ).1).

(** [m] makes some calls that are not [revoke] calls and then, unless it
    has raised, revokes [r] as its last call, the answer being its
    outcome. *)
Definition revokes_last (r : rule) (m : M unit) : Prop :=
  ∀ σ, ∃ evs,
    trace (m σ).1 = trace σ ++ evs
    ∧ revokes_fatal evs (m σ).2
    ∧ (revoked evs = [r] ∨ revoked evs = [] ∧ ∃ e, (m σ).2 = inl e).

End vocabulary.


(** * Properties *)

(** ** The diff *)

Section diff_facts.
Implicit Types (A B : list rule) (N O : gset rule).

Lemma foldl_add_old A O :
  foldl add_old O A = list_to_set A ∪ O.
Proof.
  revert O. induction A as [|r A IH]; intros O; simpl.
  - set_solver.
  - rewrite IH. unfold add_old. set_solver.
Qed.

Lemma repeated_subseteq B : repeated B ⊆ list_to_set B.
Proof.
  induction B as [|r B IH]; simpl; [set_solver|].
  destruct (decide (r ∈ B)); set_solver.
Qed.

(** The loop over the desired rules, from any intermediate pair of
    sets. *)
Lemma foldl_diff_step B N O :
  foldl diff_step (N, O) B
  = (N ∪ (list_to_set B ∖ O) ∪ repeated B, O ∖ list_to_set B).
Proof.
  revert N O. induction B as [|r B IH]; intros N O; simpl.
  - f_equal; set_solver.
  - pose proof (repeated_subseteq B) as Hsub.
    destruct (decide (r ∉ O)) as [Hr|Hr]; rewrite IH.
    + f_equal; [|set_solver].
      apply set_eq. intros x.
      destruct (decide (r ∈ B)); set_solver.
    + apply dec_stable in Hr.
      f_equal; [|set_solver].
      apply set_eq. intros x.
      destruct (decide (x = r)) as [->|Hx];
        destruct (decide (r ∈ B)) as [Hin|Hin]; set_solver.
Qed.

Lemma repeated_NoDup B : NoDup B → repeated B = ∅.
Proof.
  induction 1 as [|r B Hr _ IH]; simpl; [done|].
  rewrite decide_False by done. done.
Qed.

Lemma diff_rules_reuse A B :
  diff_rules false A B
  = ((list_to_set B ∖ list_to_set A) ∪ repeated B,
     list_to_set A ∖ list_to_set B).
Proof.
  unfold diff_rules. simpl. rewrite foldl_add_old, foldl_diff_step.
  f_equal; set_solver.
Qed.
End diff_facts.

(** ** Reasoning about computations *)

Section frames.
Context {W Conn : Type}.

Local Abbreviation sigma := (sigma W Conn).
Local Abbreviation M := (M W Conn).

Lemma bind_run {A B} (m : M A) (k : A → M B) (σ : sigma) :
  (m ≫= k) σ
  = match (m σ).2 with
    | inl e => ((m σ).1, inl e)
    | inr a => k a (m σ).1
    end.
Proof. unfold mbind, M_bind. destruct (m σ) as [σ' [e|a]]; reflexivity. Qed.

Lemma bind_raises {A B} (m : M A) (k : A → M B) σ σ' e :
  m σ = (σ', inl e) → (m ≫= k) σ = (σ', inl e).
Proof. intros Hm. rewrite bind_run, Hm. reflexivity. Qed.

Lemma bind_returns {A B} (m : M A) (k : A → M B) σ σ' a :
  m σ = (σ', inr a) → (m ≫= k) σ = k a σ'.
Proof. intros Hm. rewrite bind_run, Hm. reflexivity. Qed.

Section closure.
Context (R : sigma → sigma → Prop) `{!Frame R}.

Lemma respects_ret {A} (a : A) : respects R (mret a).
Proof. intros σ. apply frame_refl. Qed.

Lemma respects_raise {A} e : respects R (raise (A:=A) e).
Proof. intros σ. apply frame_refl. Qed.

Lemma respects_lift {A} (r : result A) : respects R (lift r).
Proof. intros σ. apply frame_refl. Qed.

Lemma respects_get_self : respects R get_self.
Proof. intros σ. apply frame_refl. Qed.

Lemma respects_bind {A B} (m : M A) (k : A → M B) :
  respects R m → (∀ a, respects R (k a)) → respects R (m ≫= k).
Proof.
  intros Hm Hk σ. rewrite bind_run. specialize (Hm σ).
  destruct (m σ) as [σ' [e|a]]; simpl in *; [done|].
  eapply frame_trans; [exact Hm|apply Hk].
Qed.

Lemma respects_try {A} (m : M A) : respects R m → respects R (try_ m).
Proof.
  intros Hm σ. specialize (Hm σ). unfold try_.
  destruct (m σ) as [σ' r]; done.
Qed.

Lemma respects_with_db {A} (m : M A) : respects R m → respects R (with_db m).
Proof.
  intros Hm σ. specialize (Hm σ). unfold with_db.
  destruct (m σ) as [σ' [e|a]]; simpl in *; [|done].
  by apply frame_rollback.
Qed.

Lemma respects_for_each {A} (f : A → M unit) l :
  (∀ x, respects R (f x)) → respects R (for_each f l).
Proof.
  intros Hf. induction l as [|x l IH]; simpl.
  - apply respects_ret.
  - apply respects_bind; auto.
Qed.

Lemma respects_map_m {A B} (f : A → M B) l :
  (∀ x, respects R (f x)) → respects R (map_m f l).
Proof.
  intros Hf. induction l as [|x l IH]; simpl.
  - apply respects_ret.
  - apply respects_bind; [auto|]. intros y.
    apply respects_bind; [auto|]. intros ys. apply respects_ret.
Qed.

Lemma respects_index0 {A} (l : list A) : respects R (index0 l).
Proof. destruct l; [apply respects_raise|apply respects_ret]. Qed.

Lemma respects_idx r i : respects R (idx r i).
Proof. unfold idx. destruct (r !! i); [apply respects_ret|apply respects_raise]. Qed.

Lemma respects_int x : respects R (int_ x).
Proof. destruct x; [apply respects_ret|apply respects_raise]. Qed.
End closure.

#[global] Instance keeps_old_frame : Frame (W:=W) (Conn:=Conn) keeps_old.
Proof.
  split; unfold keeps_old.
  - done.
  - intros σ1 σ2 σ3 H12 H23. congruence.
  - intros σ σ' _. reflexivity.
Qed.

#[global] Instance keeps_identity_frame : Frame (W:=W) (Conn:=Conn) keeps_identity.
Proof.
  split; unfold keeps_identity.
  - done.
  - intros σ1 σ2 σ3 [? ?] [? ?]. split; congruence.
  - intros σ σ' _. done.
Qed.

#[global] Instance emits_frame (P : event → Prop) : Frame (W:=W) (Conn:=Conn) (emits P).
Proof.
  split; unfold emits.
  - intros σ. exists []. by rewrite app_nil_r.
  - intros σ1 σ2 σ3 (evs & -> & Hevs) (evs' & -> & Hevs').
    exists (evs ++ evs'). rewrite app_assoc. split; [done|].
    by apply Forall_app.
  - intros σ σ' (evs & Htr & Hevs). exists evs. done.
Qed.

Lemma keeps_old_modify f :
  (∀ s : EC2SecurityGroupState Conn,
     old_security_groups (f s) = old_security_groups s) →
  respects keeps_old (modify_self (W:=W) f).
Proof. intros Hf σ. apply Hf. Qed.

Lemma keeps_old_call {A} (op : W → W * result A) ev :
  respects (Conn:=Conn) keeps_old (call op ev).
Proof. intros σ. unfold call. destruct (op (world σ)). reflexivity. Qed.

Lemma keeps_identity_modify f :
  (∀ s : EC2SecurityGroupState Conn,
     security_group_name (f s) = security_group_name s
     ∧ region (f s) = region s) →
  respects keeps_identity (modify_self (W:=W) f).
Proof. intros Hf σ. apply Hf. Qed.

Lemma keeps_identity_call {A} (op : W → W * result A) ev :
  respects (Conn:=Conn) keeps_identity (call op ev).
Proof. intros σ. unfold call. destruct (op (world σ)). done. Qed.

Lemma emits_modify P (f : EC2SecurityGroupState Conn → EC2SecurityGroupState Conn) :
  respects (emits P) (modify_self (W:=W) f).
Proof. intros σ. exists []. simpl. by rewrite app_nil_r. Qed.

Lemma emits_call {A} P (op : W → W * result A) ev :
  (∀ e, P (ev e)) → respects (Conn:=Conn) (emits P) (call op ev).
Proof.
  intros HP σ. unfold call. destruct (op (world σ)) as [w' r]. simpl.
  exists [ev (err_of r)]. split; [done|]. by constructor.
Qed.

Lemma emits_calls_of {A} P (m : M A) σ :
  emits P σ (m σ).1 → Forall P (calls_of m σ).
Proof.
  intros (evs & Htr & Hevs). unfold calls_of.
  by rewrite Htr, drop_app_length.
Qed.

Lemma trace_calls_of {A} P (m : M A) σ :
  emits P σ (m σ).1 → trace (m σ).1 = trace σ ++ calls_of m σ.
Proof.
  intros (evs & Htr & Hevs). unfold calls_of.
  by rewrite Htr, drop_app_length.
Qed.
End frames.

Section retry_frames.
Context {W Conn : Type} {remote : Collaborators W Conn}.

Lemma respects_retry_from {A} (R : sigma W Conn → sigma W Conn → Prop)
    `{!Frame R} n (f : M W Conn A) codes :
  respects R f → respects R (retry_from n f codes).
Proof.
  intros Hf. induction n as [|n IH]; simpl; [done|].
  apply (respects_bind R); [by apply (respects_try R)|].
  intros [[c|what]|a].
  - destruct (bool_decide (c ∈ codes)); [done|apply (respects_raise R)].
  - apply (respects_raise R).
  - apply (respects_ret R).
Qed.
End retry_frames.

Create HintDb methods discriminated.

#[global] Hint Unfold _connect conn_attr retry retry_notfound
  detect_identity_change resolve_vpc_id persist_definition rule_of_grant
  rules_of_group handle_not_found check_remote create_group
  get_security_group ensure_group cidr_args src_group_of group_args
  authorize_rule add_rule add_rules revoke_rule remove_rules commit_rules
  apply_rules reconcile_rules create delete_group destroy : methods.

(** One step of a proof that a computation respects a relation, by the
    shape of the computation. *)
Ltac frame_step :=
  lazymatch goal with
  | |- respects ?R (@mbind _ _ _ _ _ _) => apply (respects_bind R); [|intros ?]
  | |- respects ?R (@mret _ _ _ _) => apply (respects_ret R)
  | |- respects ?R (raise _) => apply (respects_raise R)
  | |- respects ?R (lift _) => apply (respects_lift R)
  | |- respects ?R get_self => apply (respects_get_self R)
  | |- respects ?R (try_ _) => apply (respects_try R)
  | |- respects ?R (with_db _) => apply (respects_with_db R)
  | |- respects ?R (for_each _ _) => apply (respects_for_each R); intros ?
  | |- respects ?R (map_m _ _) => apply (respects_map_m R); intros ?
  | |- respects ?R (index0 _) => apply (respects_index0 R)
  | |- respects ?R (idx _ _) => apply (respects_idx R)
  | |- respects ?R (int_ _) => apply (respects_int R)
  | |- respects ?R (retry_from _ _ _) => apply (respects_retry_from R)
  | |- respects keeps_old (call _ _) => apply keeps_old_call
  | |- respects keeps_old (modify_self _) =>
      apply keeps_old_modify; intros ?; reflexivity
  | |- respects keeps_identity (call _ _) => apply keeps_identity_call
  | |- respects keeps_identity (modify_self _) =>
      apply keeps_identity_modify; intros ?; split; reflexivity
  | |- respects (emits _) (call _ _) => apply emits_call; intros ?; done
  | |- respects (emits _) (modify_self _) => apply emits_modify
  | |- respects _ (match ?x with _ => _ end) => destruct x
  end.

Ltac frame := autounfold with methods; repeat (frame_step; cbv beta).

Section method_frames.
Context {W Conn : Type} {remote : Collaborators W Conn}.

Local Abbreviation sigma := (sigma W Conn).
Local Abbreviation M := (M W Conn).

Lemma keeps_old_resolve_vpc_id defn : respects keeps_old (resolve_vpc_id defn).
Proof. frame. Qed.

Lemma keeps_old_persist_definition defn :
  respects keeps_old (persist_definition defn).
Proof. frame. Qed.

Lemma keeps_old_reconcile_rules defn check :
  respects keeps_old (reconcile_rules defn check).
Proof. frame. Qed.

Lemma keeps_identity_reconcile_rules defn check :
  respects keeps_identity (reconcile_rules defn check).
Proof. frame. Qed.

End method_frames.

(** ** A new name or region *)

Section identity.
Context {W Conn : Type} {remote : Collaborators W Conn}.

Local Abbreviation sigma := (sigma W Conn).

Lemma detect_identity_change_unset defn (σ : sigma) :
  truthy (security_group_name (self σ)) = false →
  detect_identity_change defn σ = (σ, inr tt).
Proof.
  intros Hname. unfold detect_identity_change.
  rewrite bind_run. simpl. rewrite Hname. reflexivity.
Qed.

Lemma detect_identity_change_same defn (σ : sigma) :
  security_group_name (self σ) = Some (defn_security_group_name defn) →
  region (self σ) = Some (defn_region defn) →
  detect_identity_change defn σ = (σ, inr tt).
Proof.
  intros Hname Hregion. unfold detect_identity_change.
  rewrite bind_run. simpl. rewrite Hname, Hregion.
  rewrite !bool_decide_eq_true_2 by done. simpl.
  rewrite andb_false_r. reflexivity.
Qed.

Lemma detect_identity_change_differs defn (σ : sigma) :
  truthy (security_group_name (self σ)) = true →
  Some (defn_security_group_name defn) ≠ security_group_name (self σ)
  ∨ Some (defn_region defn) ≠ region (self σ) →
  detect_identity_change defn σ
  = ({| self :=
          set_old_security_groups
            (old_security_groups (self σ)
               ++ [ {| og_name := security_group_name (self σ);
                       og_region := region (self σ) |} ])
            (set_state UNKNOWN (self σ));
        world := world σ; trace := trace σ |}, inr tt).
Proof.
  intros Hname Hdiff. unfold detect_identity_change.
  rewrite bind_run. simpl. rewrite Hname. simpl.
  replace (negb (bool_decide (Some (defn_security_group_name defn) = security_group_name (self σ)))
           || negb (bool_decide (Some (defn_region defn) = region (self σ))))
    with true.
  - reflexivity.
  - symmetry. apply orb_true_iff.
    destruct Hdiff as [Hd|Hd]; [left|right];
      by rewrite bool_decide_eq_false_2.
Qed.

(** After its first step, [create] leaves the list of superseded groups
    alone. *)
Lemma create_old_security_groups defn check ar rc (σ : sigma) :
  old_security_groups (self (create defn check ar rc σ).1)
  = old_security_groups (self (detect_identity_change defn σ).1).
Proof.
  unfold create. rewrite bind_run.
  destruct (detect_identity_change defn σ) as [σ1 [e|[]]] eqn:Hd; simpl; [done|].
  apply (respects_bind keeps_old).
  - apply keeps_old_resolve_vpc_id.
  - intros v. cbv zeta. apply (respects_bind keeps_old).
    + apply keeps_old_persist_definition.
    + intros _. apply keeps_old_reconcile_rules.
Qed.

Lemma detect_identity_change_returns defn (σ : sigma) :
  (detect_identity_change defn σ).2 = inr tt.
Proof.
  unfold detect_identity_change. rewrite bind_run. simpl.
  destruct (_ && _); reflexivity.
Qed.

Lemma persist_definition_identity defn (σ : sigma) :
  (persist_definition defn σ).2 = inr tt
  ∧ security_group_name (self (persist_definition defn σ).1)
    = Some (defn_security_group_name defn)
  ∧ region (self (persist_definition defn σ).1) = Some (defn_region defn).
Proof. done. Qed.

(** A pass that gets past the resolution of the VPC leaves the name and
    the region of the definition in the state, however it ends. *)
Lemma create_persists_identity defn check ar rc (σ : sigma) v :
  resolved_vpc_id defn = inr v →
  security_group_name (self (create defn check ar rc σ).1)
  = Some (defn_security_group_name defn)
  ∧ region (self (create defn check ar rc σ).1) = Some (defn_region defn).
Proof.
  intros Hv. unfold create. rewrite bind_run.
  pose proof (detect_identity_change_returns defn σ) as Hd.
  destruct (detect_identity_change defn σ) as [σ1 r]. simpl in Hd. subst r.
  simpl. rewrite bind_run. unfold resolve_vpc_id, lift. rewrite Hv. simpl.
  rewrite bind_run.
  destruct (persist_definition_identity (with_vpc_id defn v) σ1)
    as (Hp & Hname & Hregion).
  destruct (persist_definition (with_vpc_id defn v) σ1) as [σ2 r].
  simpl in Hp, Hname, Hregion. subst r. simpl.
  destruct (keeps_identity_reconcile_rules (with_vpc_id defn v) check σ2)
    as [Hn Hr].
  rewrite Hn, Hr. done.
Qed.

(** C10: on the first reconcile of a resource, when no name is persisted
    yet, the check for a new name or region does nothing, whatever the
    definition says: the state is left as it is, and the pass adds
    nothing to the list of superseded groups. *)
Theorem first_reconcile_retires_nothing defn check ar rc (σ : sigma) :
  security_group_name (self σ) = None →
  detect_identity_change defn σ = (σ, inr tt)
  ∧ old_security_groups (self (create defn check ar rc σ).1)
    = old_security_groups (self σ).
Proof.
  intros Hname.
  assert (detect_identity_change defn σ = (σ, inr tt)) as Hd.
  { apply detect_identity_change_unset. by rewrite Hname. }
  split; [done|].
  by rewrite create_old_security_groups, Hd.
Qed.

(** C4 (amended): when a name is persisted and the persisted name or
    region differs from the definition's, the pass sets the state to
    UNKNOWN and appends exactly one entry, the persisted name and region,
    to the list of superseded groups; and once a pass has got past the
    resolution of the VPC, so that the new name and region are persisted,
    another pass for the same name and region appends nothing. *)
Theorem identity_change_retires_once defn check ar rc (σ : sigma) :
  truthy (security_group_name (self σ)) = true →
  Some (defn_security_group_name defn) ≠ security_group_name (self σ)
  ∨ Some (defn_region defn) ≠ region (self σ) →
  state (self (detect_identity_change defn σ).1) = UNKNOWN
  ∧ old_security_groups (self (create defn check ar rc σ).1)
    = old_security_groups (self σ)
        ++ [ {| og_name := security_group_name (self σ);
                og_region := region (self σ) |} ]
  ∧ ∀ v defn' check',
      resolved_vpc_id defn = inr v →
      defn_security_group_name defn' = defn_security_group_name defn →
      defn_region defn' = defn_region defn →
      old_security_groups
        (self (create defn' check' ar rc (create defn check ar rc σ).1).1)
      = old_security_groups (self (create defn check ar rc σ).1).
Proof.
  intros Hname Hdiff.
  pose proof (detect_identity_change_differs defn σ Hname Hdiff) as Hd.
  split; [by rewrite Hd|].
  split; [by rewrite create_old_security_groups, Hd|].
  intros v defn' check' Hv Hn Hr.
  destruct (create_persists_identity defn check ar rc σ v Hv) as [Hn1 Hr1].
  rewrite create_old_security_groups.
  rewrite detect_identity_change_same; [done| |]; congruence.
Qed.
End identity.

Lemma first_reconcile_retires_nothing_witness :
  security_group_name (self (start fresh_state)) = None
  ∧ old_security_groups
      (self (create (remote:=fixed_remote all_ok) (web_defn "web" None [ssh_rule])
               false false false (start fresh_state)).1)
    = [].
Proof.
  split; [reflexivity|].
  apply (first_reconcile_retires_nothing (remote:=fixed_remote all_ok)
           (web_defn "web" None [ssh_rule]) false false false
           (start fresh_state)).
  reflexivity.
Defined.

Lemma identity_change_retires_once_witness :
  let pass := create (remote:=fixed_remote all_ok) (web_defn "web2" None [http_rule])
                false false false in
  old_security_groups (self (pass (start web_up)).1) = [retired_web]
  ∧ old_security_groups (self (pass (pass (start web_up)).1).1)
    = old_security_groups (self (pass (start web_up)).1).
Proof.
  intros pass.
  destruct (identity_change_retires_once (remote:=fixed_remote all_ok)
              (web_defn "web2" None [http_rule]) false false false
              (start web_up)) as (_ & Hold & Hnext).
  - reflexivity.
  - left. discriminate.
  - split; [exact Hold|].
    by apply (Hnext None (web_defn "web2" None [http_rule]) false).
Defined.

(** C4, as stated, fails twice.  On the first reconcile the persisted
    name differs from the definition's and nothing is appended; and two
    passes that both find the name "web" persisted, the first one stopped
    by a VPC that cannot be resolved, append the same entry twice. *)
Lemma identity_change_counterexample :
  old_security_groups
    (self (create (remote:=fixed_remote all_ok) (web_defn "web" None [])
             false false false (start fresh_state)).1) = []
  ∧ let pass := create (remote:=fixed_remote no_vpc)
                  (web_defn "web2" (Some "res-net") []) false false false in
    (pass (start web_up)).2 = inl (Exception "resource not found")
    ∧ security_group_name (self (pass (start web_up)).1) = Some "web"
    ∧ old_security_groups (self (pass (pass (start web_up)).1).1)
      = [retired_web; retired_web].
Proof. vm_compute. done. Qed.

(** ** The claims about the diff *)

(** C1: when the group was not created in this pass, the rules to add are
    the desired rules that are not persisted and the rules to remove are
    the persisted rules that are not desired, rules being compared as
    tuples; with the two lists of rules exchanged, the two results are
    exchanged. *)
Theorem diff_rules_authoritative (A B : list rule) :
  NoDup A → NoDup B →
  diff_rules false A B
  = (list_to_set B ∖ list_to_set A, list_to_set A ∖ list_to_set B)
  ∧ diff_rules false B A
    = ((diff_rules false A B).2, (diff_rules false A B).1).
Proof.
  intros HA HB. rewrite !diff_rules_reuse.
  rewrite (repeated_NoDup A HA), (repeated_NoDup B HB). simpl.
  rewrite !(right_id_L ∅ (∪)). done.
Qed.

Lemma diff_rules_authoritative_witness :
  NoDup [http_rule] ∧ NoDup [http_rule; https_rule]
  ∧ diff_rules false [http_rule] [http_rule; https_rule]
    = (list_to_set [http_rule; https_rule] ∖ list_to_set [http_rule],
       list_to_set [http_rule] ∖ list_to_set [http_rule; https_rule]).
Proof.
  assert (NoDup [http_rule]) as HA by (by apply (bool_decide_unpack _)).
  assert (NoDup [http_rule; https_rule]) as HB by (by apply (bool_decide_unpack _)).
  split; [exact HA|]. split; [exact HB|].
  apply (diff_rules_authoritative [http_rule] [http_rule; https_rule] HA HB).
Defined.

(** C2: when the group was created in this pass, every desired rule is to
    be added and nothing is to be removed, whatever rules were persisted. *)
Theorem diff_rules_created (A B : list rule) :
  diff_rules true A B = (list_to_set B, ∅).
Proof.
  unfold diff_rules. simpl. rewrite foldl_diff_step.
  pose proof (repeated_subseteq B). f_equal; set_solver.
Qed.

(** C3: adding the rules to add to the persisted rules and then taking
    away the rules to remove gives the desired rules. *)
Theorem diff_rules_converges (current desired : list rule) :
  (list_to_set current ∪ (diff_rules false current desired).1)
    ∖ (diff_rules false current desired).2
  = list_to_set desired.
Proof.
  rewrite diff_rules_reuse. simpl.
  pose proof (repeated_subseteq desired) as Hsub.
  apply set_eq. intros x.
  specialize (Hsub x). revert Hsub.
  rewrite elem_of_difference, !elem_of_union, !elem_of_difference.
  rewrite !elem_of_list_to_set.
  destruct (decide (x ∈ current)), (decide (x ∈ desired)); tauto.
Qed.

(** The two scenarios of the diff: a first rule for a new group, and one
    more rule for a group that has one. *)
Example diff_rules_new_group :
  diff_rules true [] [ssh_rule] = ({[ ssh_rule ]}, ∅).
Proof.
  rewrite diff_rules_created. simpl. by rewrite (right_id_L ∅ (∪)).
Qed.

Example diff_rules_one_more :
  diff_rules false [http_rule] [http_rule; https_rule] = ({[ https_rule ]}, ∅).
Proof.
  assert (http_rule ≠ https_rule) as Hne by (intros [=]).
  rewrite diff_rules_reuse. cbn [repeated].
  repeat case_decide; f_equal; set_solver.
Qed.

(** A desired rule that is listed twice and persisted is added again. *)
Example diff_rules_repeated :
  diff_rules false [http_rule] [http_rule; http_rule] = ({[ http_rule ]}, ∅).
Proof.
  rewrite diff_rules_reuse. cbn [repeated].
  repeat case_decide; f_equal; set_solver.
Qed.

(** ** The source of a rule *)

Lemma rules_of_options_raises (rs : list RulesOptions) :
  (∃ e, rules_of_options rs = inl e)
  ↔ ∃ r, r ∈ rs ∧ sourceIp r = None ∧ sourceGroup r = None.
Proof.
  induction rs as [|r rs IH]; simpl.
  - split; [intros [e He]; discriminate|intros (r & Hr & _); inversion Hr].
  - unfold rule_of_options at 1.
    destruct (if String.eqb (protocol r) "icmp" then _ else _) as [f t].
    destruct (sourceIp r) as [c|] eqn:Hip; [|destruct (sourceGroup r) as [g|] eqn:Hg].
    + destruct (rules_of_options rs) as [e|xs].
      * split; [intros _|by eauto].
        destruct (proj1 IH) as (r' & ? & ?); [by eauto|].
        exists r'. split; [by right|done].
      * split; [intros [e He]; discriminate|].
        intros (r' & Hr' & Hip' & Hg').
        apply elem_of_cons in Hr' as [->|Hr']; [congruence|].
        destruct (proj2 IH) as [e He]; [by eauto|discriminate].
    + destruct (rules_of_options rs) as [e|xs].
      * split; [intros _|by eauto].
        destruct (proj1 IH) as (r' & ? & ?); [by eauto|].
        exists r'. split; [by right|done].
      * split; [intros [e He]; discriminate|].
        intros (r' & Hr' & Hip' & Hg').
        apply elem_of_cons in Hr' as [->|Hr']; [congruence|].
        destruct (proj2 IH) as [e He]; [by eauto|discriminate].
    + split; [intros _|by eauto]. exists r. split; [by left|done].
Qed.

(** [__init__] raises exactly when some rule has no source at all. *)
Lemma EC2SecurityGroupDefinition_init_raises config :
  (∃ e, EC2SecurityGroupDefinition_init config = inl e)
  ↔ ∃ r, r ∈ cfg_rules config ∧ sourceIp r = None ∧ sourceGroup r = None.
Proof.
  rewrite <- rules_of_options_raises. unfold EC2SecurityGroupDefinition_init.
  destruct (rules_of_options (cfg_rules config)) as [e|rules].
  - split; eauto.
  - split; intros [e He]; discriminate.
Qed.

(** C8 (amended): building a rule from its options raises exactly when the
    CIDR source is not set and there is no source group either; when the
    CIDR source is set the rule is the four-element CIDR rule, whether or
    not a source group is given as well; otherwise it is the five-element
    rule of the source group.  A rule is never built with both sources. *)
Theorem rule_of_options_source (r : RulesOptions) :
  ((∃ e, rule_of_options r = inl e) ↔ sourceIp r = None ∧ sourceGroup r = None)
  ∧ (∀ cidr_ip, sourceIp r = Some cidr_ip →
       ∃ p f t, rule_of_options r = inr [p; f; t; VStr cidr_ip])
  ∧ (∀ g, sourceIp r = None → sourceGroup r = Some g →
       ∃ p f t, rule_of_options r
                = inr [p; f; t; opt_str (groupName g); opt_str (ownerId g)]).
Proof.
  unfold rule_of_options.
  destruct (if String.eqb (protocol r) "icmp" then _ else _) as [f t].
  destruct (sourceIp r) as [c|]; [|destruct (sourceGroup r) as [g|]].
  - split; [split; [intros [e He]|intros [? _]]; discriminate|].
    split; [|intros g Hg; discriminate].
    intros c' [= <-]. eauto.
  - split; [split; [intros [e He]|intros [_ ?]]; discriminate|].
    split; [intros c' Hc; discriminate|].
    intros g' _ [= <-]. eauto.
  - split; [split; [done|by eauto]|].
    split; [intros c' Hc|intros g' _ Hg]; discriminate.
Qed.

(** C8, as stated, fails: a rule with both sources is accepted, as the
    CIDR rule; and so is a rule whose source group has neither a name nor
    an owner. *)
Lemma rule_of_options_counterexample :
  rule_of_options
    {| protocol := "tcp"; typeNumber := None; codeNumber := None;
       fromPort := Some 22%Z; toPort := Some 22%Z;
       sourceIp := Some "10.0.0.0/8";
       sourceGroup := Some {| groupName := Some "peers";
                              ownerId := Some "123456789012" |} |}
  = inr [VStr "tcp"; VInt 22; VInt 22; VStr "10.0.0.0/8"]
  ∧ rule_of_options
      {| protocol := "tcp"; typeNumber := None; codeNumber := None;
         fromPort := Some 22%Z; toPort := Some 22%Z;
         sourceIp := None;
         sourceGroup := Some {| groupName := None; ownerId := None |} |}
    = inr [VStr "tcp"; VInt 22; VInt 22; VNone; VNone].
Proof. split; reflexivity. Qed.

(** For [icmp] the two numbers are the type and the code. *)
Example rule_of_options_icmp :
  rule_of_options
    {| protocol := "icmp"; typeNumber := Some 8%Z; codeNumber := Some 0%Z;
       fromPort := Some 22%Z; toPort := Some 23%Z;
       sourceIp := Some "10.0.0.0/8"; sourceGroup := None |}
  = inr [VStr "icmp"; VInt 8; VInt 0; VStr "10.0.0.0/8"].
Proof. reflexivity. Qed.

(** ** Creating the group *)

Section creation.
Context {W Conn : Type} {remote : Collaborators W Conn}.

Local Abbreviation sigma := (sigma W Conn).
Local Abbreviation M := (M W Conn).

(** A connection that has been made is the cached one from then on. *)
Lemma _connect_returns (σ σ1 : sigma) c :
  _connect σ = (σ1, inr c) →
  σ1 = {| self := set_conn (Some c) (self σ); world := world σ; trace := trace σ |}
  ∧ _connect σ1 = (σ1, inr c).
Proof.
  unfold _connect. rewrite !bind_run. simpl.
  destruct σ as [s w tr]. simpl.
  destruct (_conn s) as [c0|] eqn:Hc0; simpl.
  - intros [= <- <-]. split; [destruct s; simpl in *; by subst|].
    simpl. by rewrite Hc0.
  - unfold lift. destruct (connect (region s) (access_key_id s)) as [e|c0]; simpl;
      [discriminate|].
    intros [= <- <-]. done.
Qed.

(** C5: when the call that creates the group fails with the error code
    [code], the error is swallowed exactly when the state was UNKNOWN and
    the code is that of a duplicate group: the state then becomes
    STARTING and the pass goes on, with the group not counted as created.
    In every other case, so in state MISSING and for every other code, the
    error ends the pass. *)
Theorem create_duplicate_tolerated_iff_unknown {B} defn grp
    (k : option security_group * bool → M B) (σ σ1 : sigma) c w' code :
  state (self σ) = MISSING ∨ state (self σ) = UNKNOWN →
  _connect σ = (σ1, inr c) →
  create_security_group c (security_group_name (self σ))
    (security_group_description (self σ)) (defn_vpc_id defn) (world σ)
  = (w', inl (EC2ResponseError code)) →
  (create_group defn grp ≫= k) σ
  = if bool_decide (state (self σ) = UNKNOWN ∧ code = "InvalidGroup.Duplicate")
    then k (grp, false)
           {| self := set_state STARTING (self σ1); world := w';
              trace := trace σ ++ [CreateSecurityGroup (security_group_name (self σ))
                                     (Some (EC2ResponseError code))] |}
    else ({| self := self σ1; world := w';
             trace := trace σ ++ [CreateSecurityGroup (security_group_name (self σ))
                                    (Some (EC2ResponseError code))] |},
          inl (EC2ResponseError code)).
Proof.
  intros Hst Hconn Hcreate.
  destruct (_connect_returns σ σ1 c Hconn) as [Hσ1 Hconn1].
  assert (bool_decide (state (self σ) = MISSING)
          || bool_decide (state (self σ) = UNKNOWN) = true) as Hguard.
  { apply orb_true_iff. destruct Hst as [Hs|Hs]; [left|right];
      by apply bool_decide_eq_true_2. }
  assert (world σ1 = world σ ∧ trace σ1 = trace σ
          ∧ security_group_name (self σ1) = security_group_name (self σ)
          ∧ security_group_description (self σ1)
            = security_group_description (self σ)
          ∧ state (self σ1) = state (self σ)) as (Hw & Htr & Hn & Hdesc & Hs1).
  { rewrite Hσ1. done. }
  set (σe := {| self := self σ1; world := w';
                trace := trace σ ++ [CreateSecurityGroup (security_group_name (self σ))
                                       (Some (EC2ResponseError code))] |}).
  assert (try_ (self ← get_self;
                c ← _connect;
                g ← call (create_security_group c (security_group_name self)
                            (security_group_description self) (defn_vpc_id defn))
                         (CreateSecurityGroup (security_group_name self));
                modify_self (set_security_group_id (Some (grp_id g)));;
                mret g) σ1
          = (σe, inr (inl (EC2ResponseError code)))) as Htry.
  { unfold try_.
    rewrite (bind_returns get_self _ σ1 σ1 (self σ1)) by reflexivity.
    rewrite (bind_returns _ _ _ _ _ Hconn1).
    erewrite bind_raises; [reflexivity|].
    unfold call. rewrite Hw, Hn, Hdesc, Hcreate, Htr. reflexivity. }
  assert (create_group defn grp σ
          = (res ← (self ← get_self;
                    if negb (bool_decide (state self = UNKNOWN))
                       || negb (String.eqb code "InvalidGroup.Duplicate")
                    then raise (EC2ResponseError code)
                    else mret (grp, false));
             modify_self (set_state STARTING);; mret res) σe) as Hgroup.
  { unfold create_group.
    rewrite (bind_returns get_self _ σ σ (self σ)) by reflexivity.
    rewrite Hguard.
    rewrite (bind_returns _ _ _ _ _ Hconn).
    by rewrite (bind_returns _ _ _ _ _ Htry). }
  destruct (decide (state (self σ) = UNKNOWN ∧ code = "InvalidGroup.Duplicate"))
    as [[Hu ->]|Hno].
  - rewrite bool_decide_eq_true_2 by done.
    apply bind_returns. rewrite Hgroup.
    rewrite (bind_returns _ _ σe σe (grp, false)); [reflexivity|].
    rewrite (bind_returns get_self _ σe σe (self σe)) by reflexivity.
    simpl. rewrite Hs1. rewrite (bool_decide_eq_true_2 _ Hu). reflexivity.
  - rewrite bool_decide_eq_false_2 by done.
    apply bind_raises. rewrite Hgroup.
    apply bind_raises.
    rewrite (bind_returns get_self _ σe σe (self σe)) by reflexivity.
    simpl. rewrite Hs1.
    destruct (decide (state (self σ) = UNKNOWN)) as [Hu|Hu].
    + rewrite (bool_decide_eq_true_2 _ Hu). simpl.
      destruct (String.eqb_spec code "InvalidGroup.Duplicate") as [->|Hcode];
        [by destruct Hno|reflexivity].
    + rewrite (bool_decide_eq_false_2 _ Hu). reflexivity.
Qed.

(** In any other state the group is not created at all. *)
Lemma create_group_skipped defn grp (σ : sigma) :
  state (self σ) ≠ MISSING → state (self σ) ≠ UNKNOWN →
  create_group defn grp σ = (σ, inr (grp, false)).
Proof.
  intros Hm Hu. unfold create_group. rewrite bind_run. simpl.
  by rewrite !bool_decide_eq_false_2.
Qed.
End creation.

Lemma create_duplicate_tolerated_iff_unknown_witness :
  let σ := start (web_in UNKNOWN) in
  (state (self σ) = MISSING ∨ state (self σ) = UNKNOWN)
  ∧ (create_group (remote:=fixed_remote (create_fails "InvalidGroup.Duplicate"))
       (web_defn "web" None []) None ≫= mret) σ
    = ({| self := set_state STARTING (set_conn (Some tt) (web_in UNKNOWN));
          world := tt;
          trace := [CreateSecurityGroup (Some "web")
                      (Some (EC2ResponseError "InvalidGroup.Duplicate"))] |},
       inr (None, false)).
Proof.
  intros σ. split; [by right|].
  etrans.
  - apply (create_duplicate_tolerated_iff_unknown
             (remote:=fixed_remote (create_fails "InvalidGroup.Duplicate"))
             (web_defn "web" None []) None mret σ
             {| self := set_conn (Some tt) (web_in UNKNOWN); world := tt; trace := [] |}
             tt tt "InvalidGroup.Duplicate"); [by right|reflexivity|reflexivity].
  - reflexivity.
Defined.

(** The scenario of the duplicate in state MISSING, and its counterparts,
    for whole passes. *)
Example create_duplicate_while_missing :
  (create (remote:=fixed_remote (create_fails "InvalidGroup.Duplicate"))
     (web_defn "web" None [http_rule]) false false false
     (start (web_in MISSING))).2
  = inl (EC2ResponseError "InvalidGroup.Duplicate").
Proof. by vm_compute. Qed.

Example create_duplicate_while_unknown :
  let σ' := (create (remote:=fixed_remote (create_fails "InvalidGroup.Duplicate"))
               (web_defn "web" None [http_rule]) false false false
               (start (web_in UNKNOWN))) in
  σ'.2 = inr tt ∧ state (self σ'.1) = UP.
Proof. by vm_compute. Qed.

Example create_other_error_while_unknown :
  (create (remote:=fixed_remote (create_fails "RequestLimitExceeded"))
     (web_defn "web" None [http_rule]) false false false
     (start (web_in UNKNOWN))).2
  = inl (EC2ResponseError "RequestLimitExceeded").
Proof. by vm_compute. Qed.

(** ** Destroying the group *)

Section destruction.
Context {W Conn : Type} {remote : Collaborators W Conn}.

Local Abbreviation sigma := (sigma W Conn).
Local Abbreviation M := (M W Conn).






(** With retries left, a call that fails with a listed code is made
    again. *)
Lemma retry_from_again {A} n (f : M A) codes (σ σ' : sigma) code :
  f σ = (σ', inl (EC2ResponseError code)) → code ∈ codes →
  retry_from (S n) f codes σ = retry_from n f codes σ'.
Proof.
  intros Hf Hcode. simpl.
  rewrite (bind_returns (try_ f) _ σ σ' (inl (EC2ResponseError code))).
  - by rewrite bool_decide_eq_true_2.
  - unfold try_. by rewrite Hf.
Qed.

(** A failure with any other code is not retried. *)
Lemma retry_from_unlisted {A} n (f : M A) codes (σ σ' : sigma) code :
  f σ = (σ', inl (EC2ResponseError code)) → code ∉ codes →
  retry_from n f codes σ = (σ', inl (EC2ResponseError code)).
Proof.
  intros Hf Hcode. destruct n as [|n]; simpl; [done|].
  rewrite (bind_returns (try_ f) _ σ σ' (inl (EC2ResponseError code))).
  - by rewrite bool_decide_eq_false_2.
  - unfold try_. by rewrite Hf.
Qed.
End destruction.



(** Two dependents that detach while [destroy] retries: the third delete
    call succeeds. *)
Example destroy_while_referenced :
  destroy (remote:=referenced_remote) false
    {| self := web_up; world := 2; trace := [] |}
  = ({| self := set_state MISSING (set_conn (Some tt) web_up); world := 0;
        trace := [DeleteSecurityGroup (ById (Some "sg-1"))
                    (Some (EC2ResponseError "DependencyViolation"));
                  DeleteSecurityGroup (ById (Some "sg-1"))
                    (Some (EC2ResponseError "DependencyViolation"));
                  DeleteSecurityGroup (ById (Some "sg-1")) None] |},
     inr true).
Proof. by vm_compute. Qed.

(** ** The order of the calls *)

Section order.
Context {W Conn : Type} {remote : Collaborators W Conn}.

Local Abbreviation sigma := (sigma W Conn).
Local Abbreviation M := (M W Conn).

Lemma create_extends_trace defn check ar rc :
  respects (emits (λ _, True)) (create defn check ar rc).
Proof. frame. Qed.

Lemma create_trace defn check ar rc (σ : sigma) :
  trace (create defn check ar rc σ).1
  = trace σ ++ calls_of (create defn check ar rc) σ.
Proof. apply (trace_calls_of (λ _, True)), create_extends_trace. Qed.




End order.

(** ** Revoking rules *)

Section revocation.
Context {W Conn : Type} {remote : Collaborators W Conn}.

Local Abbreviation sigma := (sigma W Conn).
Local Abbreviation M := (M W Conn).

Lemma revoked_quiet evs : Forall not_revoke evs → revoked evs = [].
Proof.
  unfold revoked. induction 1 as [|ev evs Hev _ IH]; [done|].
  destruct ev; simpl; done.
Qed.

Lemma revoked_app evs1 evs2 : revoked (evs1 ++ evs2) = revoked evs1 ++ revoked evs2.
Proof. unfold revoked. apply omap_app. Qed.

Lemma revokes_fatal_quiet {A} evs (res : result A) :
  Forall not_revoke evs → revokes_fatal evs res.
Proof.
  intros Hevs i r e Hi.
  by pose proof (Forall_lookup_1 _ _ _ _ Hevs Hi).
Qed.

(** Calls that are not [revoke] calls, made before, change nothing. *)
Lemma revokes_fatal_app_l {A} evs1 evs2 (res : result A) :
  Forall not_revoke evs1 → revokes_fatal evs2 res →
  revokes_fatal (evs1 ++ evs2) res.
Proof.
  intros H1 H2 i r e Hi.
  apply lookup_app_Some in Hi as [Hi|[Hle Hi]].
  - by pose proof (Forall_lookup_1 _ _ _ _ H1 Hi).
  - destruct (H2 _ _ _ Hi) as [Hlen ->]. split; [|done].
    rewrite length_app. lia.
Qed.


Lemma revokes_last_call (r : rule) (op : W → W * result unit) :
  revokes_last (Conn:=Conn) r (call op (Revoke r)).
Proof.
  intros σ. unfold call. destruct (op (world σ)) as [w' res]. simpl.
  exists [Revoke r (err_of res)]. split; [done|]. split; [|by left].
  intros [|i] r' e Hi; [|done]. simpl in Hi.
  destruct res as [e'|[]]; simpl in Hi; [|done].
  injection Hi as -> ->. done.
Qed.

Lemma revokes_last_bind {A} (r : rule) (m : M A) (k : A → M unit) :
  respects (emits not_revoke) m → (∀ a, revokes_last r (k a)) →
  revokes_last r (m ≫= k).
Proof.
  intros Hm Hk σ. rewrite bind_run.
  destruct (Hm σ) as (evs & Htr & Hevs).
  destruct (m σ) as [σ' [e|a]]; simpl in *.
  - exists evs. split; [done|].
    split; [by apply revokes_fatal_quiet|].
    right. split; [by apply revoked_quiet|by eauto].
  - destruct (Hk a σ') as (evs' & Htr' & Hfatal & Hrev).
    exists (evs ++ evs'). rewrite Htr', Htr, <- app_assoc.
    split; [done|]. split; [by apply revokes_fatal_app_l|].
    by rewrite revoked_app, (revoked_quiet evs Hevs).
Qed.

Lemma revokes_last_revoke_rule grp r : revokes_last r (revoke_rule grp r).
Proof.
  unfold revoke_rule. destruct (Nat.eqb (length r) 4).
  - apply revokes_last_bind; [frame|intros args]. apply revokes_last_call.
  - apply revokes_last_bind; [frame|intros src].
    apply revokes_last_bind; [frame|intros args]. apply revokes_last_call.
Qed.







End revocation.


(** The same answer to an [authorize] call is passed over. *)
Example authorize_duplicate_tolerated :
  let σ' := create (remote:=fixed_remote (authorize_fails "InvalidPermission.Duplicate"))
              (web_defn "web" None [http_rule; https_rule]) false false false
              (start web_up) in
  σ'.2 = inr tt
  ∧ authorized (trace σ'.1) = [https_rule]
  ∧ security_group_rules (self σ'.1) = [http_rule; https_rule].
Proof. by vm_compute. Qed.

(** ** Retiring the superseded groups *)

Section retirement.
Context {W Conn : Type} {remote : Collaborators W Conn}.

Local Abbreviation sigma := (sigma W Conn).
Local Abbreviation M := (M W Conn).

Lemma delete_old_groups_calls groups region conn (σ : sigma) :
  self (delete_old_groups region conn groups σ).1 = self σ
  ∧ ∃ evs,
      trace (delete_old_groups region conn groups σ).1 = trace σ ++ evs
      ∧ deleted evs `prefix_of` old_refs groups
      ∧ ((delete_old_groups region conn groups σ).2 = inr tt →
         deleted evs = old_refs groups).
Proof.
  revert region conn σ.
  induction groups as [|group groups IH]; intros region conn σ; simpl.
  - split; [done|]. exists []. by rewrite app_nil_r.
  - rewrite bind_run.
    set (pick := if bool_decide (og_region group ≠ region) then _ else _).
    assert (self (pick σ).1 = self σ ∧ trace (pick σ).1 = trace σ
            ∧ world (pick σ).1 = world σ) as (Hs & Ht & Hw).
    { unfold pick. destruct (bool_decide _); [|done].
      rewrite bind_run. simpl. unfold lift. rewrite bind_run. simpl.
      by destruct (connect _ _). }
    destruct (pick σ) as [σ1 [e|[region' conn']]]; simpl in *.
    { split; [done|]. exists []. rewrite app_nil_r.
      split; [done|]. split; [apply prefix_nil|done]. }
    rewrite (bind_run (try_ _)). unfold try_, call.
    destruct (delete_security_group conn' (ByName (og_name group)) (world σ1))
      as [w' r]. simpl.
    set (ev := DeleteSecurityGroup (ByName (og_name group)) (err_of r)).
    set (σ2 := {| self := self σ1; world := w'; trace := trace σ1 ++ [ev] |}).
    assert (∀ e, self σ2 = self σ
                 ∧ ∃ evs, trace σ2 = trace σ ++ evs
                          ∧ deleted evs `prefix_of` ByName (og_name group) :: old_refs groups
                          ∧ ((inl e : result unit) = inr tt →
                             deleted evs = ByName (og_name group) :: old_refs groups))
      as Hstop.
    { intros e. split; [done|]. exists [ev]. simpl. rewrite Ht.
      split; [done|]. split; [|done].
      apply prefix_cons, prefix_nil. }
    assert (self (delete_old_groups region' conn' groups σ2).1 = self σ
            ∧ ∃ evs,
                trace (delete_old_groups region' conn' groups σ2).1 = trace σ ++ evs
                ∧ deleted evs `prefix_of` ByName (og_name group) :: old_refs groups
                ∧ ((delete_old_groups region' conn' groups σ2).2 = inr tt →
                   deleted evs = ByName (og_name group) :: old_refs groups)) as Hgo.
    { destruct (IH region' conn' σ2) as (Hs' & evs & Htr & Hpre & Hall).
      split; [by rewrite Hs'|]. exists (ev :: evs).
      rewrite Htr. simpl. rewrite Ht, <- app_assoc. split; [done|].
      change (deleted (ev :: evs)) with (ByName (og_name group) :: deleted evs).
      split; [by apply prefix_cons|].
      intros Hok. by rewrite (Hall Hok). }
    destruct r as [[code|what]|[]]; rewrite bind_run; simpl.
    + destruct (String.eqb code "InvalidGroup.NotFound"); simpl.
      * exact Hgo.
      * exact (Hstop (EC2ResponseError code)).
    + exact (Hstop (Exception what)).
    + exact Hgo.
Qed.

Lemma after_activation_calls defn (σ : sigma) :
  ∃ evs,
    trace (after_activation defn σ).1 = trace σ ++ evs
    ∧ deleted evs `prefix_of` old_refs (old_security_groups (self σ))
    ∧ match (after_activation defn σ).2 with
      | inr _ =>
          old_security_groups (self (after_activation defn σ).1) = []
          ∧ deleted evs = old_refs (old_security_groups (self σ))
      | inl _ =>
          old_security_groups (self (after_activation defn σ).1)
          = old_security_groups (self σ)
      end.
Proof.
  unfold after_activation.
  rewrite (bind_returns get_self _ σ σ (self σ)) by reflexivity. cbv zeta.
  rewrite bind_run.
  assert (trace (_connect σ).1 = trace σ
          ∧ old_security_groups (self (_connect σ).1)
            = old_security_groups (self σ)) as [Ht Ho].
  { unfold _connect. rewrite bind_run. simpl.
    destruct (_conn (self σ)); [done|].
    rewrite bind_run. unfold lift. simpl. by destruct (connect _ _). }
  destruct (_connect σ) as [σ1 [e|conn]]; simpl in *.
  { exists []. rewrite app_nil_r. split; [done|]. split; [apply prefix_nil|done]. }
  rewrite (bind_returns get_self _ σ1 σ1 (self σ1)) by reflexivity.
  rewrite bind_run.
  destruct (delete_old_groups_calls (old_security_groups (self σ1))
              (region (self σ)) conn σ1) as (Hs & evs & Htr & Hpre & Hall).
  destruct (delete_old_groups _ _ _ σ1) as [σ2 [e|[]]]; simpl in *;
    rewrite Ho in Hpre, Hall.
  - exists evs. rewrite Htr, Ht, Hs. done.
  - exists evs. rewrite Htr, Ht. split; [done|]. split; [done|]. auto.
Qed.

(** X1: when [after_activation] returns, it has asked for the deletion of
    every superseded group, by name and in the order of the list, and the
    list is empty. *)
Theorem after_activation_retires_all defn (σ : sigma) :
  (after_activation defn σ).2 = inr tt →
  old_security_groups (self (after_activation defn σ).1) = []
  ∧ deleted (calls_of (after_activation defn) σ)
    = old_refs (old_security_groups (self σ)).
Proof.
  intros Hok.
  destruct (after_activation_calls defn σ) as (evs & Htr & _ & Hres).
  rewrite Hok in Hres. destruct Hres as [Hold Hdel].
  split; [done|]. unfold calls_of. by rewrite Htr, drop_app_length.
Qed.

(** X2: when [after_activation] raises, the list of superseded groups is
    what it was, the groups already deleted included; the deletions asked
    for are those of the first groups of the list, in order. *)
Theorem after_activation_failure_keeps_all defn (σ : sigma) e :
  (after_activation defn σ).2 = inl e →
  old_security_groups (self (after_activation defn σ).1)
  = old_security_groups (self σ)
  ∧ deleted (calls_of (after_activation defn) σ)
    `prefix_of` old_refs (old_security_groups (self σ)).
Proof.
  intros Hfail.
  destruct (after_activation_calls defn σ) as (evs & Htr & Hpre & Hres).
  rewrite Hfail in Hres. split; [done|].
  unfold calls_of. by rewrite Htr, drop_app_length.
Qed.
Lemma delete_old_groups_tolerant groups region conn (σ : sigma) :
  (∀ r k, ∃ c, connect (Conn:=Conn) (W:=W) r k = inr c) →
  (∀ c g w, (delete_security_group c g w).2 = inr tt
            ∨ (delete_security_group c g w).2
              = inl (EC2ResponseError "InvalidGroup.NotFound")) →
  (delete_old_groups region conn groups σ).2 = inr tt.
Proof.
  intros Hconn Hdel. revert region conn σ.
  induction groups as [|group groups IH]; intros region conn σ; simpl; [done|].
  rewrite bind_run.
  set (pick := if bool_decide (og_region group ≠ region) then _ else _).
  assert (∃ rc, (pick σ).2 = inr rc) as [[region' conn'] Hpick].
  { unfold pick. destruct (bool_decide _); [|by eauto].
    rewrite bind_run. simpl. unfold lift. rewrite bind_run. simpl.
    destruct (Hconn (og_region group) (access_key_id (self σ))) as [c ->].
    by eauto. }
  destruct (pick σ) as [σ1 r]. simpl in Hpick. subst r. simpl.
  rewrite (bind_run (try_ _)). unfold try_, call.
  pose proof (Hdel conn' (ByName (og_name group)) (world σ1)) as Hans.
  destruct (delete_security_group conn' (ByName (og_name group)) (world σ1))
    as [w' r]. simpl in *.
  destruct Hans as [->| ->]; rewrite bind_run; simpl; apply IH.
Qed.

(** X3: if connections can be made and every delete call is answered with
    success or with "not found", [after_activation] returns: a superseded
    group that is already gone does not stop it. *)
Theorem after_activation_tolerates_not_found defn (σ : sigma) :
  (∀ r k, ∃ c, connect (Conn:=Conn) (W:=W) r k = inr c) →
  (∀ c g w, (delete_security_group c g w).2 = inr tt
            ∨ (delete_security_group c g w).2
              = inl (EC2ResponseError "InvalidGroup.NotFound")) →
  (after_activation defn σ).2 = inr tt
  ∧ old_security_groups (self (after_activation defn σ).1) = [].
Proof.
  intros Hconn Hdel.
  assert ((after_activation defn σ).2 = inr tt) as Hok.
  { unfold after_activation.
    rewrite (bind_returns get_self _ σ σ (self σ)) by reflexivity. cbv zeta.
    rewrite bind_run.
    assert (∃ c, (_connect σ).2 = inr c) as [c Hc].
    { unfold _connect. rewrite bind_run. simpl.
      destruct (_conn (self σ)); [by eauto|].
      rewrite bind_run. unfold lift. simpl.
      destruct (Hconn (region (self σ)) (access_key_id (self σ))) as [c ->].
      by eauto. }
    destruct (_connect σ) as [σ1 r]. simpl in Hc. subst r. simpl.
    rewrite (bind_returns get_self _ σ1 σ1 (self σ1)) by reflexivity.
    rewrite bind_run.
    pose proof (delete_old_groups_tolerant (old_security_groups (self σ1))
                  (region (self σ)) c σ1 Hconn Hdel) as Hloop.
    destruct (delete_old_groups _ _ _ σ1) as [σ2 r]. simpl in Hloop.
    by subst r. }
  split; [done|]. by apply after_activation_retires_all.
Qed.
End retirement.

Lemma after_activation_retires_all_witness :
  let σ := start web2_retiring in
  (after_activation (remote:=fixed_remote all_ok) (web_defn "web2" None []) σ).2
  = inr tt
  ∧ old_security_groups
      (self (after_activation (remote:=fixed_remote all_ok)
               (web_defn "web2" None []) σ).1) = []
  ∧ deleted (calls_of (after_activation (remote:=fixed_remote all_ok)
                         (web_defn "web2" None [])) σ)
    = old_refs (old_security_groups (self σ)).
Proof.
  intros σ. split; [reflexivity|].
  apply (after_activation_retires_all (remote:=fixed_remote all_ok)
           (web_defn "web2" None []) σ).
  reflexivity.
Defined.

Lemma after_activation_failure_keeps_all_witness :
  let σ := start web2_retiring in
  let run := after_activation
               (remote:=fixed_remote (delete_fails "UnauthorizedOperation"))
               (web_defn "web2" None []) in
  (run σ).2 = inl (EC2ResponseError "UnauthorizedOperation")
  ∧ old_security_groups (self (run σ).1) = old_security_groups (self σ)
  ∧ deleted (calls_of run σ) `prefix_of` old_refs (old_security_groups (self σ)).
Proof.
  intros σ run. split; [reflexivity|].
  apply (after_activation_failure_keeps_all
           (remote:=fixed_remote (delete_fails "UnauthorizedOperation"))
           (web_defn "web2" None []) σ (EC2ResponseError "UnauthorizedOperation")).
  reflexivity.
Defined.

Lemma after_activation_tolerates_not_found_witness :
  let σ := start web2_retiring in
  let run := after_activation
               (remote:=fixed_remote (delete_fails "InvalidGroup.NotFound"))
               (web_defn "web2" None []) in
  (run σ).2 = inr tt ∧ old_security_groups (self (run σ).1) = [].
Proof.
  intros σ run.
  apply (after_activation_tolerates_not_found
           (remote:=fixed_remote (delete_fails "InvalidGroup.NotFound"))
           (web_defn "web2" None []) σ).
  - intros r k. by exists tt.
  - intros c g w. by right.
Defined.

(** ** What a pass writes *)

Section writes.
Context {W Conn : Type} {remote : Collaborators W Conn}.

Local Abbreviation sigma := (sigma W Conn).
Local Abbreviation M := (M W Conn).

#[global] Instance keeps_attributes_frame :
  Frame (W:=W) (Conn:=Conn) keeps_attributes.
Proof.
  split; unfold keeps_attributes.
  - intros σ. by destruct (self σ).
  - intros σ1 σ2 σ3 H12 H23. rewrite H23, H12. done.
  - intros σ σ' _. done.
Qed.

#[global] Instance keeps_rules_frame : Frame (W:=W) (Conn:=Conn) keeps_rules.
Proof.
  split; unfold keeps_rules.
  - done.
  - intros σ1 σ2 σ3 H12 H23. congruence.
  - intros σ σ' _. done.
Qed.

Lemma respects_modify_self (R : sigma → sigma → Prop) f :
  (∀ σ, R σ {| self := f (self σ); world := world σ; trace := trace σ |}) →
  respects R (modify_self f).
Proof. intros Hf σ. apply Hf. Qed.

Lemma respects_call {A} (R : sigma → sigma → Prop) (op : W → W * result A) ev :
  (∀ σ w' e, R σ {| self := self σ; world := w'; trace := trace σ ++ [e] |}) →
  respects R (call op ev).
Proof. intros HR σ. unfold call. destruct (op (world σ)). apply HR. Qed.
End writes.

(** As [frame], for a relation between the attributes of the object. *)
Ltac attributes_step :=
  lazymatch goal with
  | |- respects keeps_attributes (call _ _) =>
      apply (respects_call keeps_attributes); intros σ ? ?;
      unfold keeps_attributes; simpl; by destruct (self σ)
  | |- respects keeps_attributes (modify_self _) =>
      apply (respects_modify_self keeps_attributes); intros ?; reflexivity
  | |- respects keeps_rules (call _ _) =>
      apply (respects_call keeps_rules); intros ? ? ?; reflexivity
  | |- respects keeps_rules (modify_self _) =>
      apply (respects_modify_self keeps_rules); intros ?; reflexivity
  | |- _ => frame_step
  end.

Ltac attributes := autounfold with methods; repeat (attributes_step; cbv beta).

Section writes_of_methods.
Context {W Conn : Type} {remote : Collaborators W Conn}.

Local Abbreviation sigma := (sigma W Conn).
Local Abbreviation M := (M W Conn).

Lemma keeps_attributes_add_rules new_rules grp :
  respects keeps_attributes (add_rules new_rules grp).
Proof. attributes. Qed.

Lemma keeps_attributes_remove_rules old_rules grp :
  respects keeps_attributes (remove_rules old_rules grp).
Proof. attributes. Qed.

(** X4: when the rules cannot all be applied, nothing has been written to
    the attributes of the object: the persisted rules are the old ones and
    the state is not UP unless it was. *)
Theorem apply_rules_failure_writes_nothing rs grp created (σ : sigma) e :
  (apply_rules rs grp created σ).2 = inl e →
  self (apply_rules rs grp created σ).1
  = set_conn (_conn (self (apply_rules rs grp created σ).1)) (self σ).
Proof.
  unfold apply_rules.
  rewrite (bind_returns get_self _ σ σ (self σ)) by reflexivity.
  destruct (diff_rules _ _ _) as [new_rules old_rules].
  rewrite bind_run.
  pose proof (keeps_attributes_add_rules new_rules grp σ) as Hadd.
  destruct (add_rules new_rules grp σ) as [σ1 [e1|grp1]]; simpl in *; [done|].
  rewrite bind_run.
  pose proof (keeps_attributes_remove_rules old_rules grp1 σ1) as Hrem.
  destruct (remove_rules old_rules grp1 σ1) as [σ2 [e2|grp2]]; simpl in *;
    [|discriminate].
  intros _. by apply (frame_trans (R:=keeps_attributes) σ σ1 σ2).
Qed.

Lemma keeps_rules_add_rules new_rules grp :
  respects keeps_rules (add_rules new_rules grp).
Proof. attributes. Qed.

Lemma keeps_rules_remove_rules old_rules grp :
  respects keeps_rules (remove_rules old_rules grp).
Proof. attributes. Qed.

Lemma keeps_rules_create_group defn grp :
  respects keeps_rules (create_group defn grp).
Proof. attributes. Qed.

Lemma keeps_rules_detect_identity_change defn :
  respects keeps_rules (detect_identity_change (W:=W) (Conn:=Conn) defn).
Proof. attributes. Qed.

Lemma keeps_rules_persist_definition defn :
  respects keeps_rules (persist_definition (remote:=remote) defn).
Proof. attributes. Qed.

(** The outcome of a pass, phase by phase: either a phase raises, and
    the pass ends there, or every phase returns. *)
Lemma create_phases defn check ar rc (σ : sigma) :
  let σ1 := (detect_identity_change defn σ).1 in
  match resolved_vpc_id defn with
  | inl e => create defn check ar rc σ = (σ1, inl e)
  | inr v =>
      let defn' := with_vpc_id defn v in
      let σ2 := (persist_definition defn' σ1).1 in
      create defn check ar rc σ = reconcile_rules defn' check σ2
  end.
Proof.
  intros σ1. unfold create. rewrite bind_run.
  rewrite detect_identity_change_returns. fold σ1.
  rewrite bind_run. unfold resolve_vpc_id, lift. simpl.
  destruct (resolved_vpc_id defn) as [e|v]; [done|].
  cbv zeta. rewrite bind_run.
  by destruct (persist_definition_identity (with_vpc_id defn v) σ1) as [-> _].
Qed.

(** X5: a pass without the check of the remote group that raises leaves
    the persisted rules as they were: the rules of the definition are
    persisted only when all of them have been applied. *)
Theorem create_failure_keeps_rules defn ar rc (σ : sigma) e :
  (create defn false ar rc σ).2 = inl e →
  security_group_rules (self (create defn false ar rc σ).1)
  = security_group_rules (self σ).
Proof.
  pose proof (create_phases defn false ar rc σ) as Hphases. cbv zeta in Hphases.
  pose proof (keeps_rules_detect_identity_change defn σ) as Hdetect.
  destruct (resolved_vpc_id defn) as [e0|v]; [by rewrite Hphases|].
  rewrite Hphases. clear Hphases.
  pose proof (keeps_rules_persist_definition (with_vpc_id defn v)
                (detect_identity_change defn σ).1) as Hpersist.
  set (σ2 := (persist_definition _ _).1) in *.
  assert (security_group_rules (self σ2) = security_group_rules (self σ)) as H2.
  { unfold keeps_rules in *. congruence. }
  clearbody σ2. clear Hdetect Hpersist.
  unfold reconcile_rules.
  rewrite (bind_returns (mret None) _ σ2 σ2 None) by reflexivity.
  rewrite bind_run. unfold lift. simpl.
  destruct (resolve_rules _) as [e1|rs]; simpl; [done|].
  rewrite bind_run.
  pose proof (keeps_rules_create_group (with_vpc_id defn v) None σ2) as Hgroup.
  destruct (create_group _ _ σ2) as [σ3 [e3|[grp created]]]; simpl in *;
    [intros _; unfold keeps_rules in *; congruence|].
  unfold apply_rules.
  rewrite (bind_returns get_self _ σ3 σ3 (self σ3)) by reflexivity.
  destruct (diff_rules _ _ _) as [new_rules old_rules].
  rewrite bind_run.
  pose proof (keeps_rules_add_rules new_rules grp σ3) as Hadd.
  destruct (add_rules new_rules grp σ3) as [σ4 [e4|grp4]]; simpl in *;
    [intros _; unfold keeps_rules in *; congruence|].
  rewrite bind_run.
  pose proof (keeps_rules_remove_rules old_rules grp4 σ4) as Hrem.
  destruct (remove_rules old_rules grp4 σ4) as [σ5 [e5|grp5]]; simpl in *;
    [intros _; unfold keeps_rules in *; congruence|discriminate].
Qed.

(** X6: a pass that returns has got through every phase: the VPC and the
    rules of the definition resolve, the state is UP, and the name, the
    region and the resolved rules of the definition are persisted. *)
Theorem create_success_persists defn check ar rc (σ : sigma) :
  (create defn check ar rc σ).2 = inr tt →
  ∃ v rs,
    resolved_vpc_id defn = inr v
    ∧ resolve_rules (defn_security_group_rules defn) = inr rs
    ∧ state (self (create defn check ar rc σ).1) = UP
    ∧ security_group_rules (self (create defn check ar rc σ).1) = rs
    ∧ security_group_name (self (create defn check ar rc σ).1)
      = Some (defn_security_group_name defn)
    ∧ region (self (create defn check ar rc σ).1) = Some (defn_region defn).
Proof.
  intros Hok.
  pose proof (create_phases defn check ar rc σ) as Hphases. cbv zeta in Hphases.
  destruct (resolved_vpc_id defn) as [e0|v] eqn:Hv;
    [by rewrite Hphases in Hok|].
  destruct (create_persists_identity defn check ar rc σ v Hv) as [Hname Hregion].
  assert (∃ rs, resolve_rules (defn_security_group_rules defn) = inr rs
                ∧ state (self (create defn check ar rc σ).1) = UP
                ∧ security_group_rules (self (create defn check ar rc σ).1) = rs)
    as (rs & Hrs & Hup & Hrules).
  { revert Hok. rewrite Hphases. clear Hphases.
    set (σ2 := (persist_definition _ _).1). clearbody σ2.
    unfold reconcile_rules. rewrite bind_run.
    match goal with
    | |- context [(?m σ2).2] => destruct (m σ2) as [σ3 [e3|grp]]
    end; simpl; [done|].
    rewrite bind_run. unfold lift. simpl.
    destruct (resolve_rules (defn_security_group_rules defn)) as [e4|rs]; simpl;
      [done|].
    rewrite bind_run.
    destruct (create_group _ grp σ3) as [σ4 [e5|[grp' created]]]; simpl; [done|].
    unfold apply_rules.
    rewrite (bind_returns get_self _ σ4 σ4 (self σ4)) by reflexivity.
    destruct (diff_rules _ _ _) as [new_rules old_rules].
    rewrite bind_run.
    destruct (add_rules new_rules grp' σ4) as [σ5 [e6|grp5]]; simpl; [done|].
    rewrite bind_run.
    destruct (remove_rules old_rules grp5 σ5) as [σ6 [e7|grp6]]; simpl; [done|].
    intros _. by exists rs. }
  by exists v, rs.
Qed.
End writes_of_methods.

Lemma apply_rules_failure_writes_nothing_witness :
  let run := apply_rules (remote:=fixed_remote (authorize_fails "UnauthorizedOperation"))
               [http_rule; https_rule] None false in
  (run (start web_up)).2 = inl (EC2ResponseError "UnauthorizedOperation")
  ∧ self (run (start web_up)).1
    = set_conn (_conn (self (run (start web_up)).1)) web_up.
Proof.
  intros run. split; [by vm_compute|].
  apply (apply_rules_failure_writes_nothing
           (remote:=fixed_remote (authorize_fails "UnauthorizedOperation"))
           [http_rule; https_rule] None false (start web_up)
           (EC2ResponseError "UnauthorizedOperation")).
  by vm_compute.
Defined.

Lemma create_failure_keeps_rules_witness :
  let run := create (remote:=fixed_remote (authorize_fails "UnauthorizedOperation"))
               (web_defn "web" None [http_rule; https_rule]) false false false in
  (run (start web_up)).2 = inl (EC2ResponseError "UnauthorizedOperation")
  ∧ security_group_rules (self (run (start web_up)).1) = [http_rule].
Proof.
  intros run. split; [by vm_compute|].
  apply (create_failure_keeps_rules
           (remote:=fixed_remote (authorize_fails "UnauthorizedOperation"))
           (web_defn "web" None [http_rule; https_rule]) false false
           (start web_up) (EC2ResponseError "UnauthorizedOperation")).
  by vm_compute.
Defined.

Lemma create_success_persists_witness :
  let run := create (remote:=fixed_remote all_ok)
               (web_defn "web2" (Some "res-net.vpcId") [http_rule; https_rule])
               true false false in
  (run (start web_up)).2 = inr tt
  ∧ ∃ v rs,
      resolved_vpc_id (remote:=fixed_remote all_ok)
        (web_defn "web2" (Some "res-net.vpcId") [http_rule; https_rule]) = inr v
      ∧ resolve_rules (remote:=fixed_remote all_ok) [http_rule; https_rule] = inr rs
      ∧ state (self (run (start web_up)).1) = UP
      ∧ security_group_rules (self (run (start web_up)).1) = rs
      ∧ security_group_name (self (run (start web_up)).1) = Some "web2"
      ∧ region (self (run (start web_up)).1) = Some "us-east-1".
Proof.
  intros run. split; [by vm_compute|].
  apply (create_success_persists (remote:=fixed_remote all_ok)
           (web_defn "web2" (Some "res-net.vpcId") [http_rule; https_rule])
           true false false (start web_up)).
  by vm_compute.
Defined.

(** ** The shape of the rules *)

Section shapes.
Context {W Conn : Type} {remote : Collaborators W Conn}.

Lemma set_last_length (r : rule) v : length (set_last r v) = length r.
Proof.
  unfold set_last. destruct r as [|x r]; [done|].
  rewrite length_app. simpl length at 2.
  revert x. induction r as [|y r IH]; intros x; [done|].
  specialize (IH y). simpl in *. lia.
Qed.

Lemma set_last_lookup (r : rule) v i :
  S i < length r → set_last r v !! i = r !! i.
Proof.
  unfold set_last. destruct r as [|x r]; [simpl; lia|].
  revert x i. induction r as [|y r IH]; intros x i Hi; [simpl in Hi; lia|].
  destruct i as [|i]; [done|].
  change ((removelast (y :: r) ++ [v]) !! i = (y :: r) !! i).
  apply IH. simpl in *. lia.
Qed.

Lemma resolve_rule_length (r r' : rule) :
  resolve_rule r = inr r' → length r' = length r.
Proof.
  unfold resolve_rule. destruct (last r) as [[s| |]|]; try done.
  destruct (startswith s "res-"); [|by intros [= ->]].
  destruct (get_elastic_ip_resource _) as [e|[ip|]]; try done.
  intros [= <-]. apply set_last_length.
Qed.

Lemma resolve_rule_lookup (r r' : rule) i :
  resolve_rule r = inr r' → S i < length r → r' !! i = r !! i.
Proof.
  unfold resolve_rule. destruct (last r) as [[s| |]|]; try done.
  destruct (startswith s "res-"); [|by intros [= ->]].
  destruct (get_elastic_ip_resource _) as [e|[ip|]]; try done.
  intros [= <-]. apply set_last_lookup.
Qed.

(** X7: a rule built by [__init__] has four elements when a CIDR source is
    given and five otherwise, and resolving its source changes neither its
    length nor its protocol and port fields: the test [len(rule) == 4] of
    [create] tells the CIDR rules from the peer rules. *)
Theorem rule_length_tells_source (o : RulesOptions) (r r' : rule) :
  rule_of_options o = inr r →
  resolve_rule r = inr r' →
  Nat.eqb (length r') 4 = bool_decide (is_Some (sourceIp o))
  ∧ (length r' = 4 ∨ length r' = 5)
  ∧ r' !! 0 = Some (VStr (protocol o))
  ∧ r' !! 1 = r !! 1 ∧ r' !! 2 = r !! 2.
Proof.
  intros Hr Hr'.
  pose proof (resolve_rule_length r r' Hr') as Hlen.
  assert (∀ i, S i < length r → r' !! i = r !! i) as Hsame.
  { intros i. by apply resolve_rule_lookup. }
  revert Hr. unfold rule_of_options.
  destruct (if String.eqb (protocol o) "icmp" then _ else _) as [f t].
  destruct (sourceIp o) as [c|]; [|destruct (sourceGroup o) as [g|]]; [| |done].
  - intros [= <-]. rewrite Hlen, !Hsame by (simpl; lia).
    rewrite bool_decide_eq_true_2 by eauto. simpl. auto.
  - intros [= <-]. rewrite Hlen, !Hsame by (simpl; lia).
    rewrite bool_decide_eq_false_2 by (by intros [? ?]). simpl. auto.
Qed.

Lemma resolve_rules_raises (rs : list rule) (r : rule) e :
  r ∈ rs → resolve_rule r = inl e → ∃ e', resolve_rules rs = inl e'.
Proof.
  intros Hin Hr. induction rs as [|x rs IH]; [by inversion Hin|].
  simpl. apply elem_of_cons in Hin as [<-|Hin].
  - rewrite Hr. by eauto.
  - destruct (resolve_rule x); [by eauto|].
    destruct (IH Hin) as [e' ->]. by eauto.
Qed.

Lemma rules_of_options_elem (os : list RulesOptions) (rs : list rule) o :
  rules_of_options os = inr rs → o ∈ os →
  ∃ r, rule_of_options o = inr r ∧ r ∈ rs.
Proof.
  revert rs. induction os as [|x os IH]; intros rs Hrs Hin; [by inversion Hin|].
  simpl in Hrs.
  destruct (rule_of_options x) as [e|rx] eqn:Hx; [done|].
  destruct (rules_of_options os) as [e|rs'] eqn:Hos; [done|].
  injection Hrs as <-.
  apply elem_of_cons in Hin as [->|Hin].
  - exists rx. split; [done|by left].
  - destruct (IH rs' eq_refl Hin) as (r & Hr & Hr'). exists r.
    split; [done|by right].
Qed.

(** X8: a rule from a peer group whose owner is not set is accepted by
    [__init__], and the rules of the definition then fail to resolve:
    [create] reads [rule[-1].startswith] on [None]. *)
Theorem peer_rule_without_owner config defn (o : RulesOptions) g :
  EC2SecurityGroupDefinition_init config = inr defn →
  o ∈ cfg_rules config →
  sourceIp o = None → sourceGroup o = Some g → ownerId g = None →
  ∃ e, resolve_rules (defn_security_group_rules defn) = inl e.
Proof.
  intros Hinit Hin Hip Hg Howner.
  unfold EC2SecurityGroupDefinition_init in Hinit.
  destruct (rules_of_options (cfg_rules config)) as [e|rs] eqn:Hrs; [done|].
  injection Hinit as <-. simpl.
  destruct (rules_of_options_elem _ _ o Hrs Hin) as (r & Hr & Hr').
  apply (resolve_rules_raises rs r (Exception "AttributeError") Hr').
  revert Hr. unfold rule_of_options.
  destruct (if String.eqb (protocol o) "icmp" then _ else _) as [f t].
  rewrite Hip, Hg, Howner. by intros [= <-].
Qed.
End shapes.

Lemma rule_length_tells_source_witness :
  let o := {| protocol := "tcp"; typeNumber := None; codeNumber := None;
              fromPort := Some 22%Z; toPort := Some 22%Z;
              sourceIp := Some "res-address"; sourceGroup := None |} in
  let r := [VStr "tcp"; VInt 22; VInt 22; VStr "res-address"] in
  let r' := [VStr "tcp"; VInt 22; VInt 22; VStr "198.51.100.7/32"] in
  rule_of_options o = inr r
  ∧ resolve_rule (remote:=fixed_remote all_ok) r = inr r'
  ∧ Nat.eqb (length r') 4 = bool_decide (is_Some (sourceIp o)).
Proof.
  intros o r r'. split; [reflexivity|]. split; [reflexivity|].
  by destruct (rule_length_tells_source (remote:=fixed_remote all_ok) o r r'
                 eq_refl eq_refl) as [? _].
Defined.

Lemma peer_rule_without_owner_witness :
  let o := {| protocol := "tcp"; typeNumber := None; codeNumber := None;
              fromPort := Some 22%Z; toPort := Some 22%Z; sourceIp := None;
              sourceGroup := Some {| groupName := Some "peers"; ownerId := None |} |} in
  let config := {| cfg_name := "web"; cfg_description := "web servers";
                   cfg_region := "us-east-1"; cfg_accessKeyId := "AKIA";
                   cfg_vpcId := None; cfg_rules := [o] |} in
  ∃ defn, EC2SecurityGroupDefinition_init config = inr defn
          ∧ ∃ e, resolve_rules (remote:=fixed_remote all_ok)
                   (defn_security_group_rules defn) = inl e.
Proof.
  intros o config.
  eexists. split; [reflexivity|].
  apply (peer_rule_without_owner (remote:=fixed_remote all_ok) config _ o
           {| groupName := Some "peers"; ownerId := None |});
    [reflexivity|by left|reflexivity|reflexivity|reflexivity].
Defined.

(** ** Passes that change nothing on the remote side *)

Section quiet_passes.
Context {W Conn : Type} {remote : Collaborators W Conn}.

Local Abbreviation sigma := (sigma W Conn).
Local Abbreviation M := (M W Conn).

Lemma queries_check_remote defn :
  respects (emits is_query) (check_remote (remote:=remote) defn).
Proof. frame. Qed.

Lemma queries_persist_definition defn :
  respects (emits is_query) (persist_definition (remote:=remote) defn).
Proof. frame. Qed.

Lemma queries_detect_identity_change defn :
  respects (emits is_query) (detect_identity_change (W:=W) (Conn:=Conn) defn).
Proof. frame. Qed.

(** X9: when the VPC or a rule of the definition does not resolve, the
    pass raises, and the only calls it has made are those that read the
    remote group: nothing is created, authorized, revoked or deleted. *)
Theorem unresolved_reference_aborts_before_mutation defn check ar rc (σ : sigma) e :
  resolved_vpc_id defn = inl e
  ∨ resolve_rules (defn_security_group_rules defn) = inl e →
  (∃ e', (create defn check ar rc σ).2 = inl e')
  ∧ Forall is_query (calls_of (create defn check ar rc) σ).
Proof.
  intros Hfail.
  pose proof (create_phases defn check ar rc σ) as Hphases. cbv zeta in Hphases.
  pose proof (queries_detect_identity_change defn σ) as (evs1 & Htr1 & Hevs1).
  destruct (resolved_vpc_id defn) as [e0|v].
  { unfold calls_of. rewrite Hphases. simpl. split; [by eauto|].
    by rewrite Htr1, drop_app_length. }
  destruct Hfail as [?|Hrules]; [done|].
  unfold calls_of. rewrite Hphases. clear Hphases.
  pose proof (queries_persist_definition (with_vpc_id defn v)
                (detect_identity_change defn σ).1) as (evs2 & Htr2 & Hevs2).
  set (σ2 := (persist_definition _ _).1) in *.
  assert (∃ evs3 e', reconcile_rules (with_vpc_id defn v) check σ2
                     = ((reconcile_rules (with_vpc_id defn v) check σ2).1, inl e')
                     ∧ trace (reconcile_rules (with_vpc_id defn v) check σ2).1
                       = trace σ2 ++ evs3
                     ∧ Forall is_query evs3) as (evs3 & e' & Hrec & Htr3 & Hevs3).
  { unfold reconcile_rules. rewrite bind_run.
    assert (respects (emits is_query)
              (if check then check_remote (with_vpc_id defn v) else mret None))
      as Hcheck.
    { destruct check; [apply queries_check_remote|apply (respects_ret (emits is_query))]. }
    destruct (Hcheck σ2) as (evs3 & Htr3 & Hevs3).
    match goal with
    | |- context [(?m σ2).2] => destruct (m σ2) as [σ3 [e3|grp]]
    end; simpl in *; [by exists evs3, e3|].
    rewrite bind_run. unfold lift. simpl. rewrite Hrules. simpl.
    by exists evs3, e. }
  rewrite Hrec. simpl. split; [by eauto|].
  rewrite Htr3, Htr2, Htr1, <- !app_assoc, drop_app_length.
  by repeat apply Forall_app_2.
Qed.

Lemma diff_rules_in_sync (A rs : list rule) :
  NoDup rs → list_to_set rs = (list_to_set A : gset rule) →
  diff_rules false A rs = (∅, ∅).
Proof.
  intros Hnd Hsame. rewrite diff_rules_reuse, repeated_NoDup by done.
  rewrite Hsame. f_equal; set_solver.
Qed.

(** X10: a pass without the check, for the persisted name and region, on
    a group that is neither MISSING nor UNKNOWN and whose persisted rules
    are the resolved rules of the definition, makes no call at all: the
    remote group is not even looked up.  It persists the rules and sets
    the state to UP. *)
Theorem create_in_sync_makes_no_call defn ar rc (σ : sigma) v rs :
  security_group_name (self σ) = Some (defn_security_group_name defn) →
  region (self σ) = Some (defn_region defn) →
  state (self σ) ≠ MISSING → state (self σ) ≠ UNKNOWN →
  resolved_vpc_id defn = inr v →
  resolve_rules (defn_security_group_rules defn) = inr rs →
  NoDup rs →
  list_to_set rs = (list_to_set (security_group_rules (self σ)) : gset rule) →
  (create defn false ar rc σ).2 = inr tt
  ∧ trace (create defn false ar rc σ).1 = trace σ
  ∧ world (create defn false ar rc σ).1 = world σ
  ∧ state (self (create defn false ar rc σ).1) = UP
  ∧ security_group_rules (self (create defn false ar rc σ).1) = rs.
Proof.
  intros Hname Hregion Hmissing Hunknown Hv Hrs Hnd Hsame.
  pose proof (create_phases defn false ar rc σ) as Hphases. cbv zeta in Hphases.
  rewrite Hv, (detect_identity_change_same defn σ Hname Hregion) in Hphases.
  cbn [fst] in Hphases. rewrite Hphases. clear Hphases.
  set (σ2 := (persist_definition (with_vpc_id defn v) σ).1).
  assert (trace σ2 = trace σ ∧ world σ2 = world σ
          ∧ state (self σ2) = state (self σ)
          ∧ security_group_rules (self σ2) = security_group_rules (self σ))
    as (Htr & Hw & Hst & Hrules) by done.
  clearbody σ2.
  assert (reconcile_rules (with_vpc_id defn v) false σ2
          = commit_rules rs σ2) as ->.
  { unfold reconcile_rules.
    rewrite (bind_returns (mret None) _ σ2 σ2 None) by reflexivity.
    rewrite (bind_returns (lift _) _ σ2 σ2 rs) by (unfold lift; simpl; by rewrite Hrs).
    rewrite (bind_returns (create_group _ _) _ σ2 σ2 (None, false))
      by (apply create_group_skipped; congruence).
    unfold apply_rules.
    rewrite (bind_returns get_self _ σ2 σ2 (self σ2)) by reflexivity.
    rewrite Hrules, (diff_rules_in_sync _ rs Hnd Hsame).
    unfold add_rules, remove_rules.
    rewrite bool_decide_eq_false_2 by (by intros []).
    rewrite (bind_returns (mret None) _ σ2 σ2 None) by reflexivity.
    by rewrite (bind_returns (mret None) _ σ2 σ2 None) by reflexivity. }
  done.
Qed.

(** X11: after a pass that has returned, the same pass again, without the
    check, makes no call, provided the resolved rules of the definition
    are all different. *)
Theorem create_again_makes_no_call defn check ar rc (σ : sigma) rs :
  (create defn check ar rc σ).2 = inr tt →
  resolve_rules (defn_security_group_rules defn) = inr rs →
  NoDup rs →
  (create defn false ar rc (create defn check ar rc σ).1).2 = inr tt
  ∧ trace (create defn false ar rc (create defn check ar rc σ).1).1
    = trace (create defn check ar rc σ).1.
Proof.
  intros Hok Hrs Hnd.
  destruct (create_success_persists defn check ar rc σ Hok)
    as (v & rs' & Hv & Hrs' & Hup & Hrules & Hname & Hregion).
  assert (rs' = rs) as -> by congruence.
  destruct (create_in_sync_makes_no_call defn ar rc (create defn check ar rc σ).1
              v rs) as (? & ? & _); try done.
  - by rewrite Hup.
  - by rewrite Hup.
  - by rewrite Hrules.
Qed.
End quiet_passes.

Lemma unresolved_reference_aborts_before_mutation_witness :
  let run := create (remote:=fixed_remote no_vpc)
               (web_defn "web" (Some "res-net") [http_rule]) true false false in
  resolved_vpc_id (remote:=fixed_remote no_vpc)
    (web_defn "web" (Some "res-net") [http_rule])
  = inl (Exception "resource not found")
  ∧ (∃ e', (run (start web_up)).2 = inl e')
  ∧ Forall is_query (calls_of run (start web_up)).
Proof.
  intros run. split; [reflexivity|].
  apply (unresolved_reference_aborts_before_mutation (remote:=fixed_remote no_vpc)
           (web_defn "web" (Some "res-net") [http_rule]) true false false
           (start web_up) (Exception "resource not found")).
  left. reflexivity.
Defined.

Lemma create_in_sync_makes_no_call_witness :
  let run := create (remote:=fixed_remote all_ok)
               (web_defn "web" None [http_rule]) false false false in
  (run (start web_up)).2 = inr tt ∧ trace (run (start web_up)).1 = [].
Proof.
  intros run.
  destruct (create_in_sync_makes_no_call (remote:=fixed_remote all_ok)
              (web_defn "web" None [http_rule]) false false (start web_up)
              None [http_rule]) as (Hok & Htr & _);
    [reflexivity|reflexivity|discriminate|discriminate|reflexivity|reflexivity
    |by apply (bool_decide_unpack _)|reflexivity|done].
Defined.

Lemma create_again_makes_no_call_witness :
  let run check := create (remote:=fixed_remote all_ok)
                     (web_defn "web2" None [http_rule; https_rule])
                     check false false in
  (run true (start web_up)).2 = inr tt
  ∧ (run false (run true (start web_up)).1).2 = inr tt
  ∧ trace (run false (run true (start web_up)).1).1
    = trace (run true (start web_up)).1.
Proof.
  intros run.
  assert ((run true (start web_up)).2 = inr tt) as Hok by (by vm_compute).
  split; [exact Hok|].
  apply (create_again_makes_no_call (remote:=fixed_remote all_ok)
           (web_defn "web2" None [http_rule; https_rule]) true false false
           (start web_up) [http_rule; https_rule] Hok eq_refl).
  by apply (bool_decide_unpack _).
Defined.

(** ** The calls that apply the diff *)

Section applied_diff.
Context {W Conn : Type} {remote : Collaborators W Conn}.

Local Abbreviation sigma := (sigma W Conn).
Local Abbreviation M := (M W Conn).

Lemma authorized_app evs1 evs2 :
  authorized (evs1 ++ evs2) = authorized evs1 ++ authorized evs2.
Proof. unfold authorized. apply omap_app. Qed.

Lemma authorized_quiet evs : Forall not_authorize evs → authorized evs = [].
Proof.
  unfold authorized. induction 1 as [|ev evs Hev _ IH]; [done|].
  destruct ev; simpl; done.
Qed.

Lemma authorized_within N evs :
  Forall (authorizes_within N) evs →
  Forall (λ r, r ∈ N) (authorized evs) ∧ revoked evs = [].
Proof.
  unfold authorized, revoked. induction 1 as [|ev evs Hev _ [IH1 IH2]]; [done|].
  destruct ev; simpl in *; try done. split; [by constructor|done].
Qed.

Lemma respects_for_each_in {A} (R : sigma → sigma → Prop) `{!Frame R}
    (f : A → M unit) (l : list A) :
  (∀ x, x ∈ l → respects R (f x)) → respects R (for_each f l).
Proof.
  induction l as [|x l IH]; intros Hf; simpl.
  - apply (respects_ret R).
  - apply (respects_bind R); [apply Hf; by left|].
    intros _. apply IH. intros y Hy. apply Hf. by right.
Qed.

Lemma add_rule_within N grp r :
  r ∈ N → respects (emits (authorizes_within N)) (add_rule grp r).
Proof. intros Hr. frame. Qed.

Lemma add_rules_within N grp :
  respects (emits (authorizes_within N)) (add_rules N grp).
Proof.
  unfold add_rules. destruct (bool_decide (N ≠ ∅)); [|frame].
  apply (respects_bind (emits (authorizes_within N))); [frame|intros g].
  apply (respects_bind (emits (authorizes_within N))); [|intros _; frame].
  apply (respects_for_each_in (emits (authorizes_within N))).
  intros r Hr. apply add_rule_within. by apply elem_of_elements.
Qed.

Lemma not_authorize_remove_rules O grp :
  respects (emits not_authorize) (remove_rules O grp).
Proof. frame. Qed.

(** The loop that revokes, when it returns, has revoked every rule. *)
Lemma for_each_revoke_rule_all grp (l : list rule) (σ : sigma) :
  ∃ evs,
    trace (for_each (revoke_rule grp) l σ).1 = trace σ ++ evs
    ∧ revoked evs `prefix_of` l
    ∧ ((for_each (revoke_rule grp) l σ).2 = inr tt → revoked evs = l).
Proof.
  revert σ. induction l as [|r l IH]; intros σ; simpl.
  - exists []. by rewrite app_nil_r.
  - rewrite bind_run.
    destruct (revokes_last_revoke_rule grp r σ) as (evs & Htr & _ & Hrev).
    destruct (revoke_rule grp r σ) as [σ' [e|[]]]; simpl in *.
    + exists evs. split; [done|]. split; [|done].
      destruct Hrev as [->|[-> _]]; [|apply prefix_nil].
      apply prefix_cons, prefix_nil.
    + destruct (IH σ') as (evs' & Htr' & Hpre & Hall).
      exists (evs ++ evs'). rewrite Htr', Htr, <- app_assoc.
      split; [done|]. rewrite revoked_app.
      destruct Hrev as [->|[_ [e He]]]; [|done].
      split; [by apply prefix_cons|]. intros Hok. simpl. by rewrite (Hall Hok).
Qed.

Lemma remove_rules_calls O grp (σ : sigma) :
  ∃ evs,
    trace (remove_rules O grp σ).1 = trace σ ++ evs
    ∧ authorized evs = []
    ∧ revoked evs `prefix_of` elements O
    ∧ ((∃ g, (remove_rules O grp σ).2 = inr g) → revoked evs = elements O).
Proof.
  destruct (not_authorize_remove_rules O grp σ) as (evs & Htr & Hquiet).
  exists evs. split; [done|]. split; [by apply authorized_quiet|].
  revert Htr. unfold remove_rules.
  destruct (decide (O = ∅)) as [->|Hne].
  { rewrite bool_decide_eq_false_2 by (by intros []). simpl.
    intros Htr. assert (evs = []) as ->.
    { apply (app_inv_head (trace σ)). by rewrite app_nil_r. }
    by rewrite elements_empty. }
  rewrite bool_decide_eq_true_2 by done.
  rewrite bind_run.
  assert (respects (emits not_revoke) (ensure_group (remote:=remote) grp))
    as Hensure by frame.
  destruct (Hensure σ) as (evs1 & Htr1 & Hevs1).
  destruct (ensure_group grp σ) as [σ1 [e|g]]; simpl in *.
  { intros Htr. assert (evs = evs1) as ->.
    { apply (app_inv_head (trace σ)). congruence. }
    rewrite (revoked_quiet evs1 Hevs1).
    split; [apply prefix_nil|]. by intros [? ?]. }
  rewrite bind_run.
  destruct (for_each_revoke_rule_all g (elements O) σ1)
    as (evs2 & Htr2 & Hpre & Hall).
  destruct (for_each (revoke_rule g) (elements O) σ1) as [σ2 [e|[]]];
    simpl in *; intros Htr.
  - assert (evs = evs1 ++ evs2) as ->.
    { apply (app_inv_head (trace σ)). rewrite app_assoc. congruence. }
    rewrite revoked_app, (revoked_quiet evs1 Hevs1). simpl.
    split; [done|]. by intros [? ?].
  - assert (evs = evs1 ++ evs2) as ->.
    { apply (app_inv_head (trace σ)). rewrite app_assoc. congruence. }
    rewrite revoked_app, (revoked_quiet evs1 Hevs1). simpl.
    split; [done|]. intros _. by apply Hall.
Qed.

Lemma apply_rules_calls rs grp created (σ : sigma) :
  ∃ evs,
    trace (apply_rules rs grp created σ).1 = trace σ ++ evs
    ∧ Forall (λ r, r ∈ (diff_rules created (security_group_rules (self σ)) rs).1)
        (authorized evs)
    ∧ revoked evs
      `prefix_of` elements (diff_rules created (security_group_rules (self σ)) rs).2
    ∧ ((apply_rules rs grp created σ).2 = inr tt →
       revoked evs
       = elements (diff_rules created (security_group_rules (self σ)) rs).2).
Proof.
  unfold apply_rules.
  rewrite (bind_returns get_self _ σ σ (self σ)) by reflexivity.
  destruct (diff_rules _ _ _) as [N O]. simpl.
  rewrite bind_run.
  destruct (add_rules_within N grp σ) as (evs1 & Htr1 & Hevs1).
  destruct (authorized_within N evs1 Hevs1) as [Hauth Hrev].
  destruct (add_rules N grp σ) as [σ1 [e|grp1]]; simpl in *.
  { exists evs1. rewrite Hrev. split; [done|]. split; [done|].
    split; [apply prefix_nil|done]. }
  rewrite bind_run.
  destruct (remove_rules_calls O grp1 σ1) as (evs2 & Htr2 & Hauth2 & Hpre & Hall).
  destruct (remove_rules O grp1 σ1) as [σ2 [e|grp2]]; simpl in *.
  - exists (evs1 ++ evs2). rewrite Htr2, Htr1, <- app_assoc.
    rewrite authorized_app, revoked_app, Hauth2, Hrev, app_nil_r. done.
  - exists (evs1 ++ evs2). rewrite Htr2, Htr1, <- app_assoc.
    rewrite authorized_app, revoked_app, Hauth2, Hrev, app_nil_r.
    split; [done|]. split; [done|]. split; [done|]. intros _. by eauto.
Qed.

(** X12: the calls that apply the diff authorize no rule that is not to
    be added, and revoke the first of the rules to be removed, each once
    and in the order in which the set is run through, and no other rule. *)
Theorem apply_rules_stays_within_diff rs grp created (σ : sigma) :
  Forall (λ r, r ∈ (diff_rules created (security_group_rules (self σ)) rs).1)
    (authorized (calls_of (apply_rules rs grp created) σ))
  ∧ revoked (calls_of (apply_rules rs grp created) σ)
    `prefix_of` elements (diff_rules created (security_group_rules (self σ)) rs).2.
Proof.
  destruct (apply_rules_calls rs grp created σ) as (evs & Htr & Hauth & Hpre & _).
  unfold calls_of. by rewrite Htr, drop_app_length.
Qed.

(** X13: when the rules have been applied, every rule to be removed has
    been revoked, exactly once. *)
Theorem apply_rules_revokes_all rs grp created (σ : sigma) :
  (apply_rules rs grp created σ).2 = inr tt →
  revoked (calls_of (apply_rules rs grp created) σ)
  = elements (diff_rules created (security_group_rules (self σ)) rs).2.
Proof.
  intros Hok.
  destruct (apply_rules_calls rs grp created σ) as (evs & Htr & _ & _ & Hall).
  unfold calls_of. rewrite Htr, drop_app_length. by apply Hall.
Qed.
End applied_diff.

Lemma apply_rules_revokes_all_witness :
  let run := apply_rules (remote:=fixed_remote all_ok) [https_rule] None false in
  (run (start web_up)).2 = inr tt
  ∧ revoked (calls_of run (start web_up))
    = elements (diff_rules false [http_rule] [https_rule]).2.
Proof.
  intros run.
  assert ((run (start web_up)).2 = inr tt) as Hok by (by vm_compute).
  split; [exact Hok|].
  exact (apply_rules_revokes_all (remote:=fixed_remote all_ok)
           [https_rule] None false (start web_up) Hok).
Defined.

(** ** The check of the remote group *)

Section remote_check.
Context {W Conn : Type} {remote : Collaborators W Conn}.

Local Abbreviation sigma := (sigma W Conn).
Local Abbreviation M := (M W Conn).

(** X14: when the lookup of the remote group is answered with an error,
    the check sets the state to MISSING, and changes nothing else, if the
    error is "not found"; any other error is raised, and then no attribute
    has been written. *)
Theorem check_remote_lookup_fails defn (σ σ1 : sigma) c w' code :
  _connect σ = (σ1, inr c) →
  get_all_security_groups c (group_looked_up defn (self σ)) (world σ)
  = (w', inl (EC2ResponseError code)) →
  check_remote defn σ
  = if String.eqb code "InvalidGroup.NotFound"
    then ({| self := set_state MISSING (self σ1); world := w';
             trace := trace σ ++ [GetAllSecurityGroups (group_looked_up defn (self σ))
                                    (Some (EC2ResponseError code))] |},
          inr None)
    else ({| self := set_conn (_conn (self σ1)) (self σ); world := w';
             trace := trace σ ++ [GetAllSecurityGroups (group_looked_up defn (self σ))
                                    (Some (EC2ResponseError code))] |},
          inl (EC2ResponseError code)).
Proof.
  intros Hconn Hlookup.
  destruct (_connect_returns σ σ1 c Hconn) as [Hσ1 Hconn1].
  assert (world σ1 = world σ ∧ trace σ1 = trace σ
          ∧ vpc_id (self σ1) = vpc_id (self σ)
          ∧ security_group_id (self σ1) = security_group_id (self σ))
    as (Hw & Htr & Hvpc & Hid) by (by rewrite Hσ1).
  set (ev := GetAllSecurityGroups (group_looked_up defn (self σ))
               (Some (EC2ResponseError code))).
  set (σe := {| self := self σ1; world := w'; trace := trace σ ++ [ev] |}).
  unfold check_remote, with_db.
  rewrite (bind_returns _ _ _ _ _ Hconn).
  assert (try_ (self ← get_self;
                c ← _connect;
                l ← (if truthy (vpc_id self)
                     then call (get_all_security_groups c (ById (security_group_id self)))
                               (GetAllSecurityGroups (ById (security_group_id self)))
                     else call (get_all_security_groups c
                                  (ByName (Some (defn_security_group_name defn))))
                               (GetAllSecurityGroups
                                  (ByName (Some (defn_security_group_name defn)))));
                index0 l) σ1
          = (σe, inr (inl (EC2ResponseError code)))) as Htry.
  { unfold try_.
    rewrite (bind_returns get_self _ σ1 σ1 (self σ1)) by reflexivity.
    rewrite (bind_returns _ _ _ _ _ Hconn1).
    erewrite bind_raises; [reflexivity|].
    revert Hlookup. unfold σe, ev, group_looked_up.
    rewrite Hvpc, Hid.
    destruct (truthy (vpc_id (self σ))); unfold call;
      rewrite Hw, Htr; by intros ->. }
  rewrite (bind_returns _ _ _ _ _ Htry).
  unfold handle_not_found.
  destruct (String.eqb code "InvalidGroup.NotFound").
  - rewrite (bind_returns (modify_self _) _ σe
               {| self := set_state MISSING (self σ1); world := w';
                  trace := trace σ ++ [ev] |} tt) by reflexivity.
    reflexivity.
  - rewrite (bind_raises (raise _) _ σe σe (EC2ResponseError code)) by reflexivity.
    reflexivity.
Qed.
End remote_check.

Lemma check_remote_lookup_fails_witness :
  check_remote (remote:=fixed_remote
                          {| ans_vpc := inr "vpc-1";
                             ans_elastic_ip := inr None;
                             ans_groups := inl (EC2ResponseError "InvalidGroup.NotFound");
                             ans_create := inr the_group;
                             ans_authorize := inr tt; ans_revoke := inr tt;
                             ans_delete := inr tt |})
    (web_defn "web" None []) (start web_up)
  = ({| self := set_state MISSING (set_conn (Some tt) web_up); world := tt;
        trace := [GetAllSecurityGroups (ByName (Some "web"))
                    (Some (EC2ResponseError "InvalidGroup.NotFound"))] |},
     inr None).
Proof.
  etrans.
  - apply (check_remote_lookup_fails
             (remote:=fixed_remote
                        {| ans_vpc := inr "vpc-1";
                           ans_elastic_ip := inr None;
                           ans_groups := inl (EC2ResponseError "InvalidGroup.NotFound");
                           ans_create := inr the_group;
                           ans_authorize := inr tt; ans_revoke := inr tt;
                           ans_delete := inr tt |})
             (web_defn "web" None []) (start web_up)
             {| self := set_conn (Some tt) web_up; world := tt; trace := [] |}
             tt tt "InvalidGroup.NotFound"); reflexivity.
  - reflexivity.
Defined.
